(** * Croissant datasets: static analysis and record iteration

    A shallow embedding of [ml_croissant/_src/datasets.py]: the loader
    [_load_file], the [Validator] with its [run_static_analysis], the
    [Dataset] handle and the [Records] view whose [__iter__] walks the
    operation graph.

    Python effects are written out.  Exceptions are values of [exn]; a
    computation threads a state and either raises or returns.  The objects
    the module only imports (the issue ledger, the RDF and structure graph
    builders, the operations' [__call__], pandas' [iterrows], networkx's
    [topological_sort]) are the fields of two interfaces, [Runtime] and
    [Frontend]. *)

From stdpp Require Import base option list gmap strings pretty.

Open Scope string_scope.
Open Scope list_scope.

(** ** Exceptions *)

(** A raised Python exception: its class, its message and its [__cause__]
    (set by [raise ... from ...]). *)
#[warnings="-register-all"]
Inductive exn : Type :=
| PyExc (cls : string) (msg : string) (cause : option exn).

Definition ValueError (msg : string) : exn := PyExc "ValueError" msg None.
Definition AssertionError (msg : string) : exn := PyExc "AssertionError" msg None.
Definition AttributeError (msg : string) : exn := PyExc "AttributeError" msg None.
Definition KeyError (msg : string) : exn := PyExc "KeyError" msg None.
Definition ValidationError (msg : string) (cause : option exn) : exn :=
  PyExc "ValidationError" msg cause.

(** ** State and exceptions

    [SE S A] is a Python computation over the mutable state [S]: it ends in
    a new state and either an exception or a value.  The state reached when
    an exception is raised is kept, as mutations made before a [raise] stay
    visible. *)
Definition SE (S A : Type) : Type := S → S * (exn + A).

Definition ret {S A} (a : A) : SE S A := λ s, (s, inr a).
Definition raise {S A} (e : exn) : SE S A := λ s, (s, inl e).
Definition bind {S A B} (m : SE S A) (k : A → SE S B) : SE S B :=
  λ s, match m s with
       | (s', inl e) => (s', inl e)
       | (s', inr a) => k a s'
       end.
Definition gets {S A} (f : S → A) : SE S A := λ s, (s, inr (f s)).
Definition modify {S} (f : S → S) : SE S unit := λ s, (f s, inr tt).
Definition lift {S A} (r : exn + A) : SE S A := λ s, (s, r).

Notation "'let!' x := m 'in' k" := (bind m (λ x, k))
  (at level 10, x name, m at level 100, k at level 200).

(** A Python [for] loop whose body may raise: the first exception ends it. *)
Fixpoint for_each {S A} (l : list A) (body : A → SE S unit) : SE S unit :=
  match l with
  | [] => ret tt
  | x :: l' => let! _ := body x in for_each l' body
  end.

(** A list comprehension or an appending loop: the values of [f] in order. *)
Fixpoint collect {S A B} (l : list A) (f : A → SE S B) : SE S (list B) :=
  match l with
  | [] => ret []
  | x :: l' => let! y := f x in let! ys := collect l' f in ret (y :: ys)
  end.

(** ** Nodes and operations *)

(** The part of a structure-graph node this module reads: [uid] and [name]. *)
Record Node : Type := { uid : string; name : string }.

(** Modelled from the spec: the operation classes.  The module imports
    [GroupRecordSet] and [ReadField] and tests operations against them with
    [isinstance]; the other variants are named in the spec's component list. *)
Inductive OpClass : Type :=
| Download | Extract | ReadField | GroupRecordSet | Join
| OtherOperation (cls : string).

(** Modelled from the spec: an operation is a tagged variant that refers to
    the node it was compiled from, and its identity is structural. *)
Record Operation : Type := { op_class : OpClass; node : Node }.

Definition isinstance (op : Operation) (c : OpClass) : bool :=
  match op_class op, c with
  | Download, Download | Extract, Extract | ReadField, ReadField
  | GroupRecordSet, GroupRecordSet | Join, Join => true
  | OtherOperation a, OtherOperation b => bool_decide (a = b)
  | _, _ => false
  end.

#[global] Instance Node_eq_dec : EqDecision Node.
Proof. solve_decision. Defined.
#[global] Instance OpClass_eq_dec : EqDecision OpClass.
Proof. solve_decision. Defined.
#[global] Instance Operation_eq_dec : EqDecision Operation.
Proof. solve_decision. Defined.

#[global] Instance Node_countable : Countable Node.
Proof.
  refine (inj_countable' (λ n, (uid n, name n))
                         (λ p, {| uid := p.1; name := p.2 |}) _).
  by intros [].
Defined.

#[global] Instance OpClass_countable : Countable OpClass.
Proof.
  refine (inj_countable'
    (λ c, match c with
          | Download => inl 0 | Extract => inl 1 | ReadField => inl 2
          | GroupRecordSet => inl 3 | Join => inl 4
          | OtherOperation s => inr s
          end)
    (λ x, match x with
          | inl 0 => Download | inl 1 => Extract | inl 2 => ReadField
          | inl 3 => GroupRecordSet | inl 4 => Join
          | inl _ => Download
          | inr s => OtherOperation s
          end) _).
  by intros [].
Defined.

#[global] Instance Operation_countable : Countable Operation.
Proof.
  refine (inj_countable' (λ o, (op_class o, node o))
                         (λ p, {| op_class := p.1; node := p.2 |}) _).
  by intros [].
Defined.

(** ** The operation graph (a networkx [DiGraph]) *)

(** Nodes in insertion order, each with its ["kwargs"] attribute when it has
    one, and the edges.  A [DiGraph] holds no parallel edges. *)
Record DiGraph (K : Type) : Type := {
  g_nodes : list (Operation * option K);
  g_edges : list (Operation * Operation);
}.
Arguments g_nodes {K} _.
Arguments g_edges {K} _.

(** [graph.nodes[op]]: the attributes of a node, [None] when [op] is not a
    node of the graph (Python raises [KeyError]). *)
Fixpoint node_attrs {K} (ns : list (Operation * option K)) (op : Operation)
  : option (option K) :=
  match ns with
  | [] => None
  | (o, a) :: ns' => if decide (o = op) then Some a else node_attrs ns' op
  end.

Definition predecessors {K} (g : DiGraph K) (op : Operation) : list Operation :=
  (filter (λ e, e.2 = op) (g_edges g)).*1.

Definition successors {K} (g : DiGraph K) (op : Operation) : list Operation :=
  (filter (λ e, e.1 = op) (g_edges g)).*2.

(** ** The runtime the engine calls into *)

(** What [Records.__iter__] uses and this module does not define.  [Value]
    is a Python object other than [None], so [option Value] is any Python
    object; [World] is whatever the operations act on (files, downloads).
    [call op args kwargs] is the call of [op] on the positional arguments
    [args] and the keyword arguments [kwargs]; [iterrows] gives the rows
    of a data frame in order, or the exception raised on another object;
    [topological_sort] is the lazy networkx generator: the operations it
    yields, then the exception it ends with, if any; [op_str] is [str(op)]. *)
Class Runtime : Type := {
  Value : Type;
  World : Type;
  call : Operation → list (option Value) → gmap string (option Value) →
         World → World * (exn + option Value);
  iterrows : Value → exn + list Value;
  topological_sort :
    DiGraph (gmap string (option Value)) → list Operation * option exn;
  op_str : Operation → string;
}.

(** The one-character string holding a double quote (code 34). *)
Definition dquote : string :=
  String (Ascii.Ascii false true false false false true false false) EmptyString.

Section Engine.
Context {RT : Runtime}.

(** [ComputationGraph]: the attribute this module reads is [graph]. *)
Record ComputationGraph : Type := { graph : DiGraph (gmap string (option Value)) }.

(** One call of an operation, with its positional and keyword arguments. *)
Record Invocation : Type := {
  callee : Operation;
  call_args : list (option Value);
  call_kwargs : gmap string (option Value);
}.

(** The state of one run of the generator [Records.__iter__]: the local
    [results] dictionary, the records yielded so far, the calls made to
    operations and the operations announced by [logging.info], each oldest
    first, and the world the operations act on. *)
Record ExecState : Type := {
  results : gmap Operation (option Value);
  yielded : list (option Value);
  invoked : list Invocation;
  logged : list Operation;
  world : World;
}.

Definition set_results (f : gmap Operation (option Value) → gmap Operation (option Value))
  (s : ExecState) : ExecState :=
  {| results := f (results s); yielded := yielded s; invoked := invoked s;
     logged := logged s; world := world s |}.

Definition yield (v : option Value) : SE ExecState unit :=
  modify (λ s, {| results := results s; yielded := yielded s ++ [v];
                  invoked := invoked s; logged := logged s; world := world s |}).

Definition logging_info (op : Operation) : SE ExecState unit :=
  modify (λ s, {| results := results s; yielded := yielded s;
                  invoked := invoked s; logged := logged s ++ [op];
                  world := world s |}).

(** Calling an operation: the call is recorded, the world moves on, and the
    operation returns or raises. *)
Definition invoke (op : Operation) (args : list (option Value))
  (kw : gmap string (option Value)) : SE ExecState (option Value) :=
  λ s, let '(w, r) := call op args kw (world s) in
       ({| results := results s; yielded := yielded s;
           invoked := invoked s ++ [{| callee := op; call_args := args; call_kwargs := kw |}];
           logged := logged s; world := w |}, r).

(** [operations.nodes[operation].get("kwargs", {})]. *)
Definition node_kwargs (g : DiGraph (gmap string (option Value))) (op : Operation)
  : SE ExecState (gmap string (option Value)) :=
  match node_attrs (g_nodes g) op with
  | None => raise (KeyError (op_str op))
  | Some a => ret (default ∅ a)
  end.

(** [not l] for a Python list. *)
Definition is_nil {A} (l : list A) : bool :=
  match l with [] => true | _ :: _ => false end.

(** The list comprehension of lines 124-130: the cached result of each
    predecessor that has one other than [None], in predecessor order. *)
Definition previous_results (g : DiGraph (gmap string (option Value)))
  (res : gmap Operation (option Value)) (op : Operation) : list Value :=
  omap (λ previous_operation,
          match res !! previous_operation with
          | Some (Some v) => Some v
          | _ => None
          end) (predecessors g op).

(** Lines 146-148: one successor on one row. *)
Definition read_one (kw : gmap string (option Value)) (line : Value)
  (read_field : Operation) : SE ExecState (option Value) :=
  if isinstance read_field ReadField then
    let! _ := logging_info read_field in
    invoke read_field [Some line] kw
  else raise (AssertionError EmptyString).

(** Lines 144-148: the values of the successors on one row. *)
Definition read_fields (g : DiGraph (gmap string (option Value))) (op : Operation)
  (kw : gmap string (option Value)) (line : Value) : SE ExecState (list (option Value)) :=
  collect (successors g op) (read_one kw line).

(** Lines 144-150: the record of one row. *)
Definition one_row (g : DiGraph (gmap string (option Value))) (op : Operation)
  (kw : gmap string (option Value)) (line : Value) : SE ExecState unit :=
  let! fields := read_fields g op kw line in
  let! _ := logging_info op in
  let! record := invoke op fields kw in
  yield record.

(** Lines 143-150: one record per row. *)
Definition group_rows (g : DiGraph (gmap string (option Value))) (op : Operation)
  (kw : gmap string (option Value)) (rows : list Value) : SE ExecState unit :=
  for_each rows (one_row g op kw).

(** The body of the loop over the topological order (lines 122-154). *)
Definition step (g : DiGraph (gmap string (option Value))) (record_set : string)
  (operation : Operation) : SE ExecState unit :=
  let! _ := logging_info operation in
  let! kwargs := node_kwargs g operation in
  let! res := gets results in
  let previous := previous_results g res operation in
  if isinstance operation GroupRecordSet then
    if negb (String.eqb (name (node operation)) record_set) then ret tt
    else
      match previous with
      | [previous_result] =>
          let! rows := lift (iterrows previous_result) in
          group_rows g operation kwargs rows
      | _ =>
          raise (AssertionError
                   (dquote +:+ op_str operation +:+ dquote
                    +:+ " should have one and only one predecessor. Got: "
                    +:+ pretty (length previous) +:+ "."))
      end
  else
    if isinstance operation ReadField && is_nil previous then ret tt
    else
      let! v := invoke operation (Some <$> previous) kwargs in
      modify (set_results (<[operation := v]>)).

End Engine.

(** ** The issue ledger *)

(** Modelled from the spec: the ledger [Issues] of [core/issues.py], which
    this module imports.  An issue has a severity, the node it is about, if
    any, and a message; the ledger keeps issues in recording order. *)
Inductive Severity : Type := Error | Warning.

#[global] Instance Severity_eq_dec : EqDecision Severity.
Proof. solve_decision. Defined.

Record Issue : Type := {
  severity : Severity;
  issue_node : option Node;
  message : string;
}.

Definition Issues : Type := list Issue.

(** Modelled from the spec: [issues.errors] and [issues.warnings], the
    recorded issues of each severity. *)
Definition errors (iss : Issues) : list Issue :=
  filter (λ i, severity i = Error) iss.
Definition warnings (iss : Issues) : list Issue :=
  filter (λ i, severity i = Warning) iss.

(** Modelled from the spec: [issues.report()], one string concatenating all
    issues of the ledger in recording order; how one issue prints is the
    parameter [issue_str]. *)
Definition report (issue_str : Issue → string) (iss : Issues) : string :=
  foldr (λ i acc, issue_str i +:+ acc) EmptyString iss.

(** ** The front end static analysis calls into *)

(** The file system behind [epath.Path] and [json.load], and the functions
    of [rdf_graph.graph] and [operation_graph] that [run_static_analysis]
    calls.  Those that receive the ledger return it as they leave it, also
    when they raise. *)
Class Frontend {RT : Runtime} : Type := {
  Json : Type;
  RdfGraph : Type;
  NxGraph : Type;
  NamespaceManager : Type;
  Nodes : Type;
  StructureGraph : Type;
  path_resolve : string → string;
  path_exists : string → bool;
  path_parent : string → string;
  json_load : string → exn + Json;
  load_rdf_graph : Json → exn + (RdfGraph * NxGraph);
  namespace_manager : RdfGraph → NamespaceManager;
  check_rdf_graph : Issues → NxGraph → Issues * (exn + Nodes);
  build_structure_graph : Issues → Nodes → Issues * (exn + (Node * StructureGraph));
  from_nodes : Issues → Node → StructureGraph → string → NamespaceManager →
               Issues * (exn + ComputationGraph);
  check_graph : ComputationGraph → Issues → Issues * (exn + unit);
  issue_str : Issue → string;
}.

Section Loader.
Context {RT : Runtime} {FE : Frontend}.

(** [_load_file] (lines 24-37). *)
Definition _load_file (filepath : string) : exn + (string * Json) :=
  let filepath := path_resolve filepath in
  if negb (path_exists filepath) then
    inl (ValueError ("File " +:+ filepath +:+ " does not exist."))
  else
    match json_load filepath with
    | inl e => inl e
    | inr content => inr (filepath, content)
    end.

End Loader.

(** ** [Validator] *)

Module Validator.
Section Def.
Context {RT : Runtime} {FE : Frontend}.

(** The dataclass; [file] has no value until [run_static_analysis] sets it. *)
Record t : Type := {
  file_or_file_path : string;
  issues : Issues;
  file : option Json;
  operations : option ComputationGraph;
}.

(** [Validator(file_or_file_path)]: a new ledger, no operations. *)
Definition new (path : string) : t :=
  {| file_or_file_path := path; issues := []; file := None; operations := None |}.

(** The front-end calls of one analysis, for the record of what ran. *)
Inductive Stage : Type :=
| LoadRdfGraph | CheckRdfGraph | BuildStructureGraph | FromNodes | CheckGraph.

(** The state of one run: the validator object, the front-end calls made
    so far and the messages given to [logging.warning], each oldest first. *)
Record Run : Type := {
  self : t;
  stages : list Stage;
  warned : list string;
}.

Definition start (v : t) : Run := {| self := v; stages := []; warned := [] |}.

Definition set_file (content : Json) (r : Run) : Run :=
  {| self := {| file_or_file_path := file_or_file_path (self r);
                issues := issues (self r);
                file := Some content;
                operations := operations (self r) |};
     stages := stages r; warned := warned r |}.

Definition set_operations (ops : ComputationGraph) (r : Run) : Run :=
  {| self := {| file_or_file_path := file_or_file_path (self r);
                issues := issues (self r);
                file := file (self r);
                operations := Some ops |};
     stages := stages r; warned := warned r |}.

Definition logging_warning (msg : string) : SE Run unit :=
  modify (λ r, {| self := self r; stages := stages r; warned := warned r ++ [msg] |}).

(** A front-end call that reads no ledger. *)
Definition stage {A} (st : Stage) (res : exn + A) : SE Run A :=
  λ r, ({| self := self r; stages := stages r ++ [st]; warned := warned r |}, res).

(** A front-end call on the validator's ledger, which it may extend. *)
Definition stage_on_issues {A} (st : Stage) (f : Issues → Issues * (exn + A)) : SE Run A :=
  λ r, let '(iss, res) := f (issues (self r)) in
       ({| self := {| file_or_file_path := file_or_file_path (self r);
                      issues := iss;
                      file := file (self r);
                      operations := operations (self r) |};
           stages := stages r ++ [st]; warned := warned r |}, res).

(** How the [try] block is left when nothing is raised: by the [return] of
    line 60, or at its end. *)
Inductive Exit : Type := Returned | Completed.

(** The [try] block (lines 51-68). *)
Definition analysis : SE Run Exit :=
  let! path := gets (λ r, file_or_file_path (self r)) in
  let! loaded := lift (_load_file path) in
  let file_path := loaded.1 in
  let! _ := modify (set_file loaded.2) in
  let! rdf := stage LoadRdfGraph (load_rdf_graph loaded.2) in
  let rdf_namespace_manager := namespace_manager rdf.1 in
  let! nodes := stage_on_issues CheckRdfGraph (λ iss, check_rdf_graph iss rdf.2) in
  let! built := stage_on_issues BuildStructureGraph (λ iss, build_structure_graph iss nodes) in
  let entry_node := built.1 in
  if String.eqb (uid entry_node) "Movielens-25M" then ret Returned
  else
    let! ops := stage_on_issues FromNodes
                  (λ iss, from_nodes iss entry_node built.2 (path_parent file_path)
                                     rdf_namespace_manager) in
    let! _ := modify (set_operations ops) in
    let! _ := stage_on_issues CheckGraph (check_graph ops) in
    ret Completed.

(** [run_static_analysis] (lines 49-76): the [try] block, its [except]
    clause and the checks after it. *)
Definition run_static_analysis : SE Run unit :=
  λ r,
    match analysis r with
    | (r', inl exception) =>
        if negb (is_nil (errors (issues (self r')))) then
          (r', inl (ValidationError (report issue_str (issues (self r'))) (Some exception)))
        else (r', inl exception)
    | (r', inr Returned) => (r', inr tt)
    | (r', inr Completed) =>
        if negb (is_nil (errors (issues (self r')))) then
          (r', inl (ValidationError (report issue_str (issues (self r'))) None))
        else if negb (is_nil (warnings (issues (self r')))) then
          logging_warning (report issue_str (issues (self r'))) r'
        else (r', inr tt)
    end.

End Def.
End Validator.

(** ** [Dataset] *)

Module Dataset.
Section Def.
Context {RT : Runtime} {FE : Frontend}.

(** The dataclass once [__post_init__] has run: [file] is the loaded
    document and [operations] the validator's. *)
Record t : Type := {
  file : Json;
  operations : option ComputationGraph;
  validator : Validator.t;
}.

(** [Dataset(file)], that is [__post_init__] (lines 90-95): the run of the
    validator, and the dataset or the exception that escapes. *)
Definition post_init (path : string) : Validator.Run * (exn + t) :=
  match Validator.run_static_analysis (Validator.start (Validator.new path)) with
  | (r, inl e) => (r, inl e)
  | (r, inr _) =>
      match Validator.file (Validator.self r) with
      | None => (r, inl (AttributeError "'Validator' object has no attribute 'file'"))
      | Some content =>
          (r, inr {| file := content;
                     operations := Validator.operations (Validator.self r);
                     validator := Validator.self r |})
      end
  end.

End Def.
End Dataset.

(** ** [Records] *)

Module Records.
Section Def.
Context {RT : Runtime} {FE : Frontend}.

Record t : Type := {
  dataset : Dataset.t;
  record_set : string;
}.

(** Lines 120-154: the walk over the operation graph. *)
Definition run_graph (self : t) : SE ExecState unit :=
  match Dataset.operations (dataset self) with
  | None => raise (AttributeError "'NoneType' object has no attribute 'graph'")
  | Some cg =>
      let operations := graph cg in
      let order := topological_sort operations in
      let! _ := for_each order.1 (step operations (record_set self)) in
      match order.2 with
      | Some e => raise e
      | None => ret tt
      end
  end.

(** [__iter__] (lines 113-154), run to exhaustion: a new, empty [results]
    dictionary, then the walk. *)
Definition iter (self : t) : SE ExecState unit :=
  let! _ := modify (set_results (λ _, ∅)) in
  run_graph self.

(** The state a new generator starts from, in the world [w]. *)
Definition fresh (w : World) : ExecState :=
  {| results := ∅; yielded := []; invoked := []; logged := []; world := w |}.

(** [list(records)] in the world [w]: the final state, which holds the
    records yielded, and how the iteration ended. *)
Definition iterate (self : t) (w : World) : ExecState * (exn + unit) :=
  iter self (fresh w).

End Def.
End Records.

(** [Dataset.records] (lines 97-98). *)
Definition records {RT : Runtime} {FE : Frontend}
  (dataset : Dataset.t) (record_set : string) : Records.t :=
  {| Records.dataset := dataset; Records.record_set := record_set |}.

(** ** What the statements below are written in *)

Section Vocabulary.
Context {RT : Runtime}.

(** The state after the announcement [logging.info] makes of [op]. *)
Definition announced (op : Operation) (s : ExecState) : ExecState :=
  {| results := results s; yielded := yielded s; invoked := invoked s;
     logged := logged s ++ [op]; world := world s |}.

(** The spec's gathering of predecessor results: walking the predecessors
    in order, one that was executed with a result other than [None]
    contributes that result; one absent from the cache, or cached as
    [None], contributes nothing. *)
Inductive Gathered (res : gmap Operation (option Value))
  : list Operation → list Value → Prop :=
| gathered_nil : Gathered res [] []
| gathered_keep p ps v vs :
    res !! p = Some (Some v) → Gathered res ps vs → Gathered res (p :: ps) (v :: vs)
| gathered_absent p ps vs :
    res !! p = None → Gathered res ps vs → Gathered res (p :: ps) vs
| gathered_none p ps vs :
    res !! p = Some None → Gathered res ps vs → Gathered res (p :: ps) vs.

(** An operation that returns on whatever it is called. *)
Definition returns (op : Operation) : Prop :=
  ∀ args kw w, ∃ w' v, call op args kw w = (w', inr v).

(** The spec's reading of one row: every successor is a [ReadField] and is
    called on the row with the record set's keyword arguments, in order,
    each call starting in the world the one before left. *)
Inductive FieldsRead (kw : gmap string (option Value)) (line : Value)
  : list Operation → World → list (option Value) → World → Prop :=
| fields_nil w : FieldsRead kw line [] w [] w
| fields_cons read_field rest w w1 v vs w2 :
    isinstance read_field ReadField = true →
    call read_field [Some line] kw w = (w1, inr v) →
    FieldsRead kw line rest w1 vs w2 →
    FieldsRead kw line (read_field :: rest) w (v :: vs) w2.

(** The spec's expansion of a record set over the rows of its table: for
    each row in order, the fields are read, then the [GroupRecordSet] is
    called on the field values and what it returns is the row's record. *)
Inductive RowsAssembled (fields : list Operation) (op : Operation)
  (kw : gmap string (option Value))
  : list Value → World → list (option Value) → World → Prop :=
| rows_nil w : RowsAssembled fields op kw [] w [] w
| rows_cons line lines w w1 values w2 record recs w3 :
    FieldsRead kw line fields w values w1 →
    call op values kw w1 = (w2, inr record) →
    RowsAssembled fields op kw lines w2 recs w3 →
    RowsAssembled fields op kw (line :: lines) w (record :: recs) w3.

(** The operations are deterministic: what a call returns or raises does
    not depend on the world it runs in. *)
Definition deterministic_operations : Prop :=
  ∀ op args kw w1 w2, (call op args kw w1).2 = (call op args kw w2).2.

(** Two states of the engine with the same results cache, the second one
    having the traces of the first behind the earlier records [ys], calls
    [cs] and log lines [ls]; their worlds are unrelated. *)
Definition same_run_after (ys : list (option Value)) (cs : list Invocation)
  (ls : list Operation) (s1 s2 : ExecState) : Prop :=
  results s2 = results s1 ∧ yielded s2 = ys ++ yielded s1 ∧
  invoked s2 = cs ++ invoked s1 ∧ logged s2 = ls ++ logged s1.

(** A computation that reads neither the world nor the traces: from two
    such states it ends in two such states, with the same outcome. *)
Definition world_blind {A} (m : SE ExecState A) : Prop :=
  ∀ ys cs ls s1 s2,
    same_run_after ys cs ls s1 s2 →
    same_run_after ys cs ls (m s1).1 (m s2).1 ∧ (m s2).2 = (m s1).2.

End Vocabulary.

Section AnalysisVocabulary.
Context {RT : Runtime} {FE : Frontend}.

(** The message [_load_file] raises for a path that resolves to no file. *)
Definition missing_file (path : string) : exn :=
  ValueError ("File " +:+ path_resolve path +:+ " does not exist.").

(** The reading of the diagnostics report that ties the exception to the
    ledger alone, for the document at [path]: a [ValidationError] carrying
    the report is raised exactly when an error was recorded, and with
    warnings only the analysis returns and logs the report. *)
Definition report_follows_ledger (path : string) : Prop :=
  let out := Validator.run_static_analysis (Validator.start (Validator.new path)) in
  let ledger := Validator.issues (Validator.self out.1) in
  ((∃ cause, out.2 = inl (ValidationError (report issue_str ledger) cause))
   ↔ errors ledger ≠ [])
  ∧ (errors ledger = [] → warnings ledger ≠ [] →
     out.2 = inr tt ∧ Validator.warned out.1 = [report issue_str ledger]).

End AnalysisVocabulary.

Section TraceVocabulary.
Context {RT : Runtime}.

(** The call a record set's row loop makes to one successor on one row. *)
Definition row_call (kw : gmap string (option Value)) (line : Value)
  (read_field : Operation) : Invocation :=
  {| callee := read_field; call_args := [Some line]; call_kwargs := kw |}.

(** A call the row loop of the record set [op] may make on the row [line]:
    a [ReadField] on that row alone, or [op] itself, either with the
    keyword arguments [kw]. *)
Definition row_loop_call (op : Operation) (kw : gmap string (option Value))
  (line : Value) (c : Invocation) : Prop :=
  call_kwargs c = kw
  ∧ ((isinstance (callee c) ReadField = true ∧ call_args c = [Some line])
     ∨ callee c = op).

(** A results cache that holds no [GroupRecordSet]. *)
Definition no_record_set_cached (res : gmap Operation (option Value)) : Prop :=
  ∀ k, is_Some (res !! k) → isinstance k GroupRecordSet = false.

End TraceVocabulary.

(** The front-end calls of a complete analysis, in the order of the source. *)
Definition pipeline : list Validator.Stage :=
  [Validator.LoadRdfGraph; Validator.CheckRdfGraph; Validator.BuildStructureGraph;
   Validator.FromNodes; Validator.CheckGraph].

(** [s] occurs in [t]. *)
Definition occurs_in (s t : string) : Prop :=
  ∃ before after, t = before +:+ s +:+ after.

(** ** A small dataset to run the definitions on

    One downloaded table of two rows feeding two record sets, [ratings]
    with the fields [user] and [score], and [movies] with the field
    [title]; and a file system of three documents. *)

Module Demo.

Inductive Obj : Type :=
| Num (z : Z)
| Row (cells : list Z)
| Table (rows : list (list Z))
| Rec (fields : list (option Z)).

Definition mk (c : OpClass) (n : string) : Operation :=
  {| op_class := c; node := {| uid := n; name := n |} |}.

Definition dl : Operation := mk Download "ratings.csv".
Definition ratings : Operation := mk GroupRecordSet "ratings".
Definition user : Operation := mk ReadField "user".
Definition score : Operation := mk ReadField "score".
Definition movies : Operation := mk GroupRecordSet "movies".
Definition title : Operation := mk ReadField "title".

Definition column (n : string) : nat :=
  if String.eqb n "score" then 1 else 0.

Definition as_num (v : option Obj) : option Z :=
  match v with Some (Num z) => Some z | _ => None end.

(** The operations: the download returns the table and counts itself in
    the world, a field reads its column of the row, a record set packs the
    field values, anything else returns [None]. *)
Definition demo_call (op : Operation) (args : list (option Obj))
  (kw : gmap string (option Obj)) (w : nat) : nat * (exn + option Obj) :=
  match op_class op with
  | Download => (S w, inr (Some (Table [[1; 5]; [2; 3]]%Z)))
  | ReadField =>
      match args with
      | [Some (Row cells)] => (w, inr (Some (Num (nth (column (name (node op))) cells 0%Z))))
      | _ => (w, inr None)
      end
  | GroupRecordSet => (w, inr (Some (Rec (as_num <$> args))))
  | _ => (w, inr None)
  end.

Definition demo_iterrows (v : Obj) : exn + list Obj :=
  match v with
  | Table rows => inr (Row <$> rows)
  | _ => inl (AttributeError "object has no attribute 'iterrows'")
  end.

(** Kahn's algorithm by generations, as networkx runs it: the operations
    none of whose predecessors remain, then the rest; a cycle ends the
    order with [NetworkXUnfeasible]. *)
Definition unfeasible (remaining : list Operation) : option exn :=
  match remaining with
  | [] => None
  | _ => Some (PyExc "NetworkXUnfeasible" "Graph contains a cycle." None)
  end.

Fixpoint kahn (fuel : nat) (edges : list (Operation * Operation))
  (remaining : list Operation) : list Operation * option exn :=
  match fuel with
  | 0 => ([], unfeasible remaining)
  | S fuel' =>
      let ready :=
        filter (λ v, Forall (λ e, e.2 = v → e.1 ∉ remaining) edges) remaining in
      match ready with
      | [] => ([], unfeasible remaining)
      | _ =>
          let rest := kahn fuel' edges (filter (λ v, v ∉ ready) remaining) in
          (ready ++ rest.1, rest.2)
      end
  end.

Definition demo_sort {K} (g : DiGraph K) : list Operation * option exn :=
  kahn (length (g_nodes g)) (g_edges g) (g_nodes g).*1.

#[local] Instance runtime : Runtime := {|
  Value := Obj;
  World := nat;
  call := demo_call;
  iterrows := demo_iterrows;
  topological_sort := demo_sort;
  op_str := λ op, name (node op);
|}.

(** The world before any download. *)
Definition offline : World := 0.

Definition demo_graph : DiGraph (gmap string (option Obj)) :=
  {| g_nodes := [(dl, None); (ratings, None); (user, None); (score, None);
                 (movies, None); (title, None)];
     g_edges := [(dl, ratings); (ratings, user); (ratings, score);
                 (dl, movies); (movies, title)] |}.

Definition demo_operations : ComputationGraph := {| graph := demo_graph |}.

Definition issue (sev : Severity) (msg : string) : Issue :=
  {| severity := sev; issue_node := None; message := msg |}.

Definition missing_name : Issue :=
  issue Error "Property name is mandatory, but does not exist.".

(** The documents: [ratings.json] is valid, [movielens.json] is the legacy
    dataset and lacks a mandatory property, [noisy.json] only earns a
    warning and its graph check crashes.  A document is known by its path. *)
Definition demo_check_rdf (iss : Issues) (doc : string) : Issues * (exn + string) :=
  if String.eqb doc "movielens.json" then (iss ++ [missing_name], inr doc)
  else if String.eqb doc "noisy.json" then
    (iss ++ [issue Warning "No license."], inr doc)
  else (iss, inr doc).

Definition demo_build (iss : Issues) (doc : string)
  : Issues * (exn + (Node * string)) :=
  (iss, inr ({| uid := if String.eqb doc "movielens.json" then "Movielens-25M" else doc;
                name := doc |}, doc)).

Definition demo_check_graph (ops : ComputationGraph) (iss : Issues)
  : Issues * (exn + unit) :=
  (iss, inr tt).

#[local] Instance frontend : Frontend := {|
  Json := string;
  RdfGraph := string;
  NxGraph := string;
  NamespaceManager := unit;
  Nodes := string;
  StructureGraph := string;
  path_resolve := λ p, p;
  path_exists := λ p, bool_decide (p ∈ ["ratings.json"; "movielens.json"; "noisy.json"]);
  path_parent := λ _, ".";
  json_load := λ p, inr p;
  load_rdf_graph := λ doc, inr (doc, doc);
  namespace_manager := λ _, tt;
  check_rdf_graph := demo_check_rdf;
  build_structure_graph := demo_build;
  from_nodes := λ iss entry sg folder ns,
    if String.eqb sg "noisy.json" then
      (iss, inl (PyExc "NotImplementedError" "unsupported" None))
    else (iss, inr demo_operations);
  check_graph := demo_check_graph;
  issue_str := message;
|}.

Definition demo_dataset : Dataset.t :=
  {| Dataset.file := "ratings.json";
     Dataset.operations := Some demo_operations;
     Dataset.validator :=
       {| Validator.file_or_file_path := "ratings.json";
          Validator.issues := [];
          Validator.file := Some "ratings.json";
          Validator.operations := Some demo_operations |} |}.

(** The state in which the walk for [ratings] reaches the record set: the
    download has run and its table is cached. *)
Definition downloaded : ExecState :=
  {| results := {[ dl := Some (Table [[1; 5]; [2; 3]]%Z) ]};
     yielded := [];
     invoked := [{| callee := dl; call_args := []; call_kwargs := ∅ |}];
     logged := [dl];
     world := 1 |}.

(** A join of three sources, met when the first is cached with a table,
    the second is cached as [None] and the third has not run. *)
Definition left_source : Operation := mk Download "left.csv".
Definition right_source : Operation := mk Extract "right.zip".
Definition late_source : Operation := mk Download "late.csv".
Definition joined : Operation := mk Join "joined".

Definition join_graph : DiGraph (gmap string (option Obj)) :=
  {| g_nodes := [(left_source, None); (right_source, None); (late_source, None);
                 (joined, None)];
     g_edges := [(left_source, joined); (right_source, joined);
                 (late_source, joined)] |}.

Definition before_join : ExecState :=
  {| results := <[left_source := Some (Table [[7]]%Z)]> (<[right_source := None]> ∅);
     yielded := [];
     invoked := [];
     logged := [left_source; right_source];
     world := 1 |}.

(** What [Dataset("movielens.json")] builds. *)
Definition movielens_validator : Validator.t :=
  {| Validator.file_or_file_path := "movielens.json";
     Validator.issues := [missing_name];
     Validator.file := Some "movielens.json";
     Validator.operations := None |}.

Definition movielens_run : Validator.Run :=
  {| Validator.self := movielens_validator;
     Validator.stages := [Validator.LoadRdfGraph; Validator.CheckRdfGraph;
                          Validator.BuildStructureGraph];
     Validator.warned := [] |}.

Definition movielens_dataset : Dataset.t :=
  {| Dataset.file := "movielens.json";
     Dataset.operations := None;
     Dataset.validator := movielens_validator |}.

End Demo.

(** ** A dataset whose archive cannot be extracted, and a document that
    lacks a mandatory property *)

Module Faulty.

Definition unzip : Operation := Demo.mk Extract "ratings.zip".

Definition bad_zip : exn := PyExc "BadZipFile" "File is not a zip file" None.

(** The operations of the demo, but extraction raises. *)
Definition faulty_call (op : Operation) (args : list (option Demo.Obj))
  (kw : gmap string (option Demo.Obj)) (w : nat) : nat * (exn + option Demo.Obj) :=
  match op_class op with
  | Extract => (w, inl bad_zip)
  | _ => Demo.demo_call op args kw w
  end.

#[local] Instance runtime : Runtime := {|
  Value := Demo.Obj;
  World := nat;
  call := faulty_call;
  iterrows := Demo.demo_iterrows;
  topological_sort := Demo.demo_sort;
  op_str := λ op, name (node op);
|}.

Definition offline : World := 0.

Definition archive_graph : DiGraph (gmap string (option Demo.Obj)) :=
  {| g_nodes := [(Demo.dl, None); (unzip, None); (Demo.ratings, None);
                 (Demo.user, None)];
     g_edges := [(Demo.dl, unzip); (unzip, Demo.ratings); (Demo.ratings, Demo.user)] |}.

Definition archive_operations : ComputationGraph := {| graph := archive_graph |}.

(** The state in which the walk reaches the extraction. *)
Definition downloaded : ExecState :=
  {| results := {[ Demo.dl := Some (Demo.Table [[1; 5]; [2; 3]]%Z) ]};
     yielded := [];
     invoked := [{| callee := Demo.dl; call_args := []; call_kwargs := ∅ |}];
     logged := [Demo.dl];
     world := 1 |}.

(** A record set one of whose successors is a download, not a field. *)
Definition odd_graph : DiGraph (gmap string (option Demo.Obj)) :=
  {| g_nodes := [(Demo.ratings, None); (Demo.user, None); (Demo.dl, None);
                 (Demo.score, None)];
     g_edges := [(Demo.ratings, Demo.user); (Demo.ratings, Demo.dl);
                 (Demo.ratings, Demo.score)] |}.

(** A record set and its field, each with keyword arguments of its own. *)
Definition tuned_graph : DiGraph (gmap string (option Demo.Obj)) :=
  {| g_nodes := [(Demo.dl, None);
                 (Demo.ratings, Some {[ "sep" := Some (Demo.Num 59) ]});
                 (Demo.user, Some {[ "sep" := Some (Demo.Num 44) ]})];
     g_edges := [(Demo.dl, Demo.ratings); (Demo.ratings, Demo.user)] |}.

Definition missing_content_url : Issue :=
  Demo.issue Error
    "Property https://schema.org/contentUrl is mandatory, but does not exist.".

Definition no_content_url : exn := PyExc "KeyError" "contentUrl" None.

Definition truncated_json : exn :=
  PyExc "JSONDecodeError" "Expecting value: line 1 column 1 (char 0)" None.

Definition not_rdf : exn := PyExc "JsonLdError" "Invalid JSON-LD syntax" None.

(** The documents: [archive.json] is valid; in
    [distribution_missing_property_content_url.json] the check of the RDF
    graph records the missing property, and the compilation then fails on
    it; [truncated.json] is no JSON; [plain.json] is JSON but no RDF
    graph. *)
Definition faulty_check_rdf (iss : Issues) (doc : string) : Issues * (exn + string) :=
  if String.eqb doc "distribution_missing_property_content_url.json"
  then (iss ++ [missing_content_url], inr doc)
  else (iss, inr doc).

Definition faulty_from_nodes (iss : Issues) (entry : Node) (sg folder : string)
  (ns : unit) : Issues * (exn + ComputationGraph) :=
  if String.eqb sg "distribution_missing_property_content_url.json"
  then (iss, inl no_content_url)
  else (iss, inr archive_operations).

#[local] Instance frontend : Frontend := {|
  Json := string;
  RdfGraph := string;
  NxGraph := string;
  NamespaceManager := unit;
  Nodes := string;
  StructureGraph := string;
  path_resolve := λ p, p;
  path_exists := λ p,
    bool_decide (p ∈ ["archive.json";
                      "distribution_missing_property_content_url.json";
                      "truncated.json"; "plain.json"]);
  path_parent := λ _, ".";
  json_load := λ p,
    if String.eqb p "truncated.json" then inl truncated_json else inr p;
  load_rdf_graph := λ doc,
    if String.eqb doc "plain.json" then inl not_rdf else inr (doc, doc);
  namespace_manager := λ _, tt;
  check_rdf_graph := faulty_check_rdf;
  build_structure_graph := λ iss doc, (iss, inr ({| uid := doc; name := doc |}, doc));
  from_nodes := faulty_from_nodes;
  check_graph := λ ops iss, (iss, inr tt);
  issue_str := message;
|}.

Definition archive_validator : Validator.t :=
  {| Validator.file_or_file_path := "archive.json";
     Validator.issues := [];
     Validator.file := Some "archive.json";
     Validator.operations := Some archive_operations |}.

Definition archive_run : Validator.Run :=
  {| Validator.self := archive_validator;
     Validator.stages := pipeline;
     Validator.warned := [] |}.

(** What [Dataset("archive.json")] builds. *)
Definition archive_dataset : Dataset.t :=
  {| Dataset.file := "archive.json";
     Dataset.operations := Some archive_operations;
     Dataset.validator := archive_validator |}.

End Faulty.

(** * Properties *)

(** ** One step of the engine *)

Section EngineFacts.
Context {RT : Runtime}.

Implicit Types (g : DiGraph (gmap string (option Value))).
Implicit Types (s : ExecState) (op : Operation) (rs : string).

Lemma step_node_missing g rs op s :
  node_attrs (g_nodes g) op = None →
  step g rs op s = (announced op s, inl (KeyError (op_str op))).
Proof.
  intros Hn. unfold step, bind, logging_info, modify, node_kwargs. simpl.
  by rewrite Hn.
Qed.

(** C3: in the walk over the topological order, a [GroupRecordSet] whose
    node name differs from the target record set is skipped entirely: the
    step returns normally having called no operation, yielded no record and
    cached no result; its only trace is the log line every step begins
    with.  Hence only a [GroupRecordSet] named as the target is processed. *)
Theorem step_skips_other_record_set g rs op s a :
  node_attrs (g_nodes g) op = Some a →
  isinstance op GroupRecordSet = true →
  name (node op) ≠ rs →
  step g rs op s = (announced op s, inr tt).
Proof.
  intros Hn Hg Hne.
  unfold step, bind, logging_info, modify, node_kwargs, gets. simpl.
  rewrite Hn. simpl. rewrite Hg.
  apply String.eqb_neq in Hne. by rewrite Hne.
Qed.

(** C7: a [ReadField] met in the top-level walk with no gathered
    predecessor result is skipped: it is not called and nothing is added
    to the results cache (nor is anything yielded). *)
Theorem step_skips_read_field_without_input g rs op s a :
  node_attrs (g_nodes g) op = Some a →
  isinstance op ReadField = true →
  previous_results g (results s) op = [] →
  step g rs op s = (announced op s, inr tt).
Proof.
  intros Hn Hr Hp.
  unfold step, bind, logging_info, modify, node_kwargs, gets. simpl.
  rewrite Hn. simpl. rewrite Hp, Hr. simpl.
  destruct op as [[] nd]; simpl in *; try discriminate; done.
Qed.

Lemma previous_results_gathered g res op :
  Gathered res (predecessors g op) (previous_results g res op).
Proof.
  unfold previous_results.
  induction (predecessors g op) as [|p ps IH]; simpl.
  - constructor.
  - destruct (res !! p) as [[v|]|] eqn:Hp.
    + by apply gathered_keep.
    + by apply gathered_none.
    + by apply gathered_absent.
Qed.

Lemma Gathered_functional res ps vs vs' :
  Gathered res ps vs → Gathered res ps vs' → vs = vs'.
Proof.
  intros H. revert vs'.
  induction H as [|p ps v vs Hp _ IH|p ps vs Hp _ IH|p ps vs Hp _ IH];
    intros vs' H'; inversion H'; subst; try congruence; auto.
  f_equal; [congruence | auto].
Qed.

Lemma Gathered_elem res ps vs v :
  Gathered res ps vs → v ∈ vs ↔ ∃ p, p ∈ ps ∧ res !! p = Some (Some v).
Proof.
  induction 1 as [|p ps v' vs Hp _ IH|p ps vs Hp _ IH|p ps vs Hp _ IH].
  - split; [by intros ?%elem_of_nil | by intros (? & ?%elem_of_nil & _)].
  - rewrite elem_of_cons, IH. split.
    + intros [->|(q & Hq & Hv)]; [exists p | exists q]; rewrite elem_of_cons; auto.
    + intros (q & [->|Hq]%elem_of_cons & Hv); [left; congruence | right; eauto].
  - rewrite IH. split.
    + intros (q & Hq & Hv). exists q. rewrite elem_of_cons; auto.
    + intros (q & [->|Hq]%elem_of_cons & Hv); [congruence | eauto].
  - rewrite IH. split.
    + intros (q & Hq & Hv). exists q. rewrite elem_of_cons; auto.
    + intros (q & [->|Hq]%elem_of_cons & Hv); [congruence | eauto].
Qed.

(** C6: for an operation the engine executes, the gathered predecessor
    results are exactly the cached results of its graph predecessors that
    were executed with a result other than [None], in predecessor order; a
    predecessor absent from the cache or cached as [None] contributes
    nothing.  A plain operation, unless it is a [ReadField] with nothing
    gathered, is called on exactly these. *)
Theorem executed_on_gathered_results g rs op s a :
  node_attrs (g_nodes g) op = Some a →
  let gathered := previous_results g (results s) op in
  (∀ vs, Gathered (results s) (predecessors g op) vs ↔ vs = gathered)
  ∧ (∀ v, v ∈ gathered ↔ ∃ p, p ∈ predecessors g op ∧ results s !! p = Some (Some v))
  ∧ (isinstance op GroupRecordSet = false →
     isinstance op ReadField && is_nil gathered = false →
     invoked (step g rs op s).1 =
       invoked s ++ [{| callee := op; call_args := Some <$> gathered;
                        call_kwargs := default ∅ a |}]).
Proof.
  intros Hn gathered.
  pose proof (previous_results_gathered g (results s) op) as HG.
  split; [|split].
  - intros vs. split.
    + intros H. eapply Gathered_functional; eauto.
    + by intros ->.
  - intros v. by apply Gathered_elem.
  - intros Hg Hr.
    unfold step, bind, logging_info, modify, node_kwargs, gets. simpl.
    rewrite Hn. simpl. rewrite Hg. fold gathered. rewrite Hr.
    unfold invoke. simpl.
    destruct (call op _ _ _) as [w [e|v]]; reflexivity.
Qed.

(** ** Yields come from the target record set only *)

(** A step on an operation other than the target's [GroupRecordSet] yields
    nothing, however it ends. *)
Lemma step_yields_nothing g rs op s :
  (isinstance op GroupRecordSet = true → name (node op) ≠ rs) →
  yielded (step g rs op s).1 = yielded s.
Proof.
  intros Hother.
  destruct (node_attrs (g_nodes g) op) as [a|] eqn:Hn;
    [|by rewrite step_node_missing].
  unfold step, bind, logging_info, modify, node_kwargs, gets. simpl.
  rewrite Hn. simpl.
  destruct (isinstance op GroupRecordSet) eqn:Hg.
  - specialize (Hother eq_refl). apply String.eqb_neq in Hother.
    by rewrite Hother.
  - destruct (isinstance op ReadField && _); [done|].
    unfold invoke. simpl.
    by destruct (call op _ _ _) as [w [e|v]].
Qed.

Lemma walk_yields_nothing g rs ops s :
  (∀ o, o ∈ ops → isinstance o GroupRecordSet = true → name (node o) ≠ rs) →
  yielded (for_each ops (step g rs) s).1 = yielded s.
Proof.
  revert s. induction ops as [|o ops IH]; intros s Hall; [done|].
  simpl. unfold bind.
  pose proof (step_yields_nothing g rs o s) as Ho.
  destruct (step g rs o s) as [s1 [e|[]]]; simpl in *.
  - apply Ho. intros. apply Hall; [left | done].
  - rewrite IH.
    + apply Ho. intros. apply Hall; [left | done].
    + intros o' Ho'. apply Hall. by right.
Qed.

(** A step on such an operation returns when the operation is a node of
    the graph and its call returns. *)
Lemma step_other_returns g rs op s :
  is_Some (node_attrs (g_nodes g) op) →
  returns op →
  (isinstance op GroupRecordSet = true → name (node op) ≠ rs) →
  ∃ s', step g rs op s = (s', inr tt).
Proof.
  intros [a Hn] Hret Hother.
  unfold step, bind, logging_info, modify, node_kwargs, gets. simpl.
  rewrite Hn. simpl.
  destruct (isinstance op GroupRecordSet) eqn:Hg.
  - specialize (Hother eq_refl). apply String.eqb_neq in Hother.
    rewrite Hother. by eexists.
  - destruct (isinstance op ReadField && _); [by eexists|].
    unfold invoke. simpl.
    destruct (Hret (Some <$> previous_results g (results s) op) (default ∅ a) (world s))
      as (w' & v & ->).
    by eexists.
Qed.

Lemma walk_others_returns g rs ops s :
  (∀ o, o ∈ ops → is_Some (node_attrs (g_nodes g) o) ∧ returns o) →
  (∀ o, o ∈ ops → isinstance o GroupRecordSet = true → name (node o) ≠ rs) →
  ∃ s', for_each ops (step g rs) s = (s', inr tt).
Proof.
  revert s. induction ops as [|o ops IH]; intros s Hok Hother.
  - by exists s.
  - simpl. unfold bind.
    destruct (step_other_returns g rs o s) as [s1 ->].
    + apply Hok. left.
    + apply Hok. left.
    + apply Hother. left.
    + apply IH; intros o' Ho'; [apply Hok | apply Hother]; by right.
Qed.

(** ** The rows of the target record set *)

Lemma read_fields_returns kw line fs s :
  (∀ f, f ∈ fs → isinstance f ReadField = true ∧ returns f) →
  ∃ s' vs, collect fs (read_one kw line) s = (s', inr vs)
    ∧ results s' = results s ∧ yielded s' = yielded s
    ∧ FieldsRead kw line fs (world s) vs (world s').
Proof.
  revert s. induction fs as [|f fs IH]; intros s Hfs.
  - exists s, []. repeat split. constructor.
  - destruct (Hfs f) as [Hrf Hret]; [left|].
    destruct (Hret [Some line] kw (world s)) as (w1 & v & Hcall).
    set (s1 := {| results := results s; yielded := yielded s;
                  invoked := invoked s ++ [{| callee := f; call_args := [Some line];
                                              call_kwargs := kw |}];
                  logged := logged s ++ [f]; world := w1 |}).
    destruct (IH s1) as (s' & vs & Hc & Hres & Hy & HF).
    { intros f' Hf'. apply Hfs. by right. }
    exists s', (v :: vs).
    split; [|repeat split; try done].
    + simpl. unfold bind at 1. unfold read_one at 1. rewrite Hrf.
      unfold bind at 1, logging_info, modify, invoke. simpl. rewrite Hcall.
      fold s1. unfold bind. by rewrite Hc.
    + econstructor; eauto.
Qed.

Lemma for_each_cons {S A} (x : A) (l : list A) (body : A → SE S unit) (s : S) :
  for_each (x :: l) body s =
    match body x s with
    | (s', inl e) => (s', inl e)
    | (s', inr _) => for_each l body s'
    end.
Proof. reflexivity. Qed.

Lemma one_row_returns g op kw line s :
  (∀ f, f ∈ successors g op → isinstance f ReadField = true ∧ returns f) →
  returns op →
  ∃ s' values w1 record, one_row g op kw line s = (s', inr tt)
    ∧ results s' = results s
    ∧ yielded s' = yielded s ++ [record]
    ∧ FieldsRead kw line (successors g op) (world s) values w1
    ∧ call op values kw w1 = (world s', inr record).
Proof.
  intros Hfs Hret.
  destruct (read_fields_returns kw line (successors g op) s Hfs)
    as (s1 & vs & Hc & Hres1 & Hy1 & HF).
  destruct (Hret vs kw (world s1)) as (w2 & record & Hcall).
  exists {| results := results s1; yielded := yielded s1 ++ [record];
            invoked := invoked s1 ++ [{| callee := op; call_args := vs;
                                         call_kwargs := kw |}];
            logged := logged s1 ++ [op]; world := w2 |}, vs, (world s1), record.
  split; [|split; [|split; [|split]]]; simpl.
  - unfold one_row, read_fields. unfold bind at 1. rewrite Hc.
    unfold bind at 1, logging_info, modify. simpl.
    unfold bind at 1, invoke. simpl. rewrite Hcall.
    unfold yield, modify. simpl. reflexivity.
  - done.
  - by rewrite Hy1.
  - done.
  - done.
Qed.

Lemma group_rows_assembled g op kw rows s :
  (∀ f, f ∈ successors g op → isinstance f ReadField = true ∧ returns f) →
  returns op →
  ∃ s' recs, group_rows g op kw rows s = (s', inr tt)
    ∧ results s' = results s
    ∧ yielded s' = yielded s ++ recs
    ∧ length recs = length rows
    ∧ RowsAssembled (successors g op) op kw rows (world s) recs (world s').
Proof.
  intros Hfs Hret. unfold group_rows. revert s.
  induction rows as [|line rows IH]; intros s.
  - exists s, []. repeat split; [by rewrite app_nil_r | constructor].
  - destruct (one_row_returns g op kw line s Hfs Hret)
      as (s2 & vs & w1 & record & Hrow & Hres2 & Hy2 & HF & Hcall).
    destruct (IH s2) as (s' & recs & Hg & Hres & Hy & Hlen & HR).
    exists s', (record :: recs).
    split; [|repeat split].
    + by rewrite for_each_cons, Hrow.
    + by rewrite Hres.
    + rewrite Hy, Hy2. by rewrite <- app_assoc.
    + simpl. by rewrite Hlen.
    + econstructor; eauto.
Qed.

(** The step on the target's [GroupRecordSet], when one table was gathered
    and every call returns. *)
Lemma step_target_assembled g rs op s a tbl rows :
  node_attrs (g_nodes g) op = Some a →
  isinstance op GroupRecordSet = true →
  name (node op) = rs →
  previous_results g (results s) op = [tbl] →
  iterrows tbl = inr rows →
  (∀ f, f ∈ successors g op → isinstance f ReadField = true ∧ returns f) →
  returns op →
  ∃ s' recs, step g rs op s = (s', inr tt)
    ∧ yielded s' = yielded s ++ recs
    ∧ length recs = length rows
    ∧ RowsAssembled (successors g op) op (default ∅ a) rows (world s) recs (world s').
Proof.
  intros Hn Hg Hname Hp Hrows Hfs Hret.
  destruct (group_rows_assembled g op (default ∅ a) rows (announced op s) Hfs Hret)
    as (s' & recs & Hrun & _ & Hy & Hlen & HR).
  exists s', recs. split; [|done].
  unfold step, bind, logging_info, modify, node_kwargs, gets. simpl.
  rewrite Hn. simpl. rewrite Hg, Hp.
  apply String.eqb_eq in Hname. rewrite Hname. simpl.
  unfold lift. rewrite Hrows. exact Hrun.
Qed.

(** ** The world does not steer deterministic operations *)

Lemma world_blind_ret {A} (a : A) : world_blind (ret a).
Proof. by intros ys cs ls s1 s2 H. Qed.

Lemma world_blind_raise {A} (e : exn) : world_blind (raise (A := A) e).
Proof. by intros ys cs ls s1 s2 H. Qed.

Lemma world_blind_lift {A} (r : exn + A) : world_blind (lift r).
Proof. by intros ys cs ls s1 s2 H. Qed.

Lemma world_blind_bind {A B} (m : SE ExecState A) (k : A → SE ExecState B) :
  world_blind m → (∀ a, world_blind (k a)) → world_blind (bind m k).
Proof.
  intros Hm Hk ys cs ls s1 s2 H. unfold bind.
  destruct (Hm ys cs ls s1 s2 H) as [Hs Hr].
  destruct (m s1) as [s1' r1], (m s2) as [s2' r2]. simpl in *. subst r2.
  destruct r1 as [e|a]; [done|]. by apply Hk.
Qed.

Lemma world_blind_gets_results : world_blind (gets results).
Proof. intros ys cs ls s1 s2 H. split; [done|]. simpl. f_equal. apply H. Qed.

Lemma world_blind_logging_info op : world_blind (logging_info op).
Proof.
  intros ys cs ls s1 s2 (Hr & Hy & Hi & Hl). split; [|done].
  repeat split; simpl; try done. by rewrite Hl, app_assoc.
Qed.

Lemma world_blind_yield v : world_blind (yield v).
Proof.
  intros ys cs ls s1 s2 (Hr & Hy & Hi & Hl). split; [|done].
  repeat split; simpl; try done. by rewrite Hy, app_assoc.
Qed.

Lemma world_blind_set_results f : world_blind (modify (set_results f)).
Proof.
  intros ys cs ls s1 s2 (Hr & Hy & Hi & Hl). split; [|done].
  repeat split; simpl; try done. by rewrite Hr.
Qed.

Lemma world_blind_invoke op args kw :
  deterministic_operations → world_blind (invoke op args kw).
Proof.
  intros Hdet ys cs ls s1 s2 (Hr & Hy & Hi & Hl). unfold invoke.
  pose proof (Hdet op args kw (world s1) (world s2)) as Hsame.
  destruct (call op args kw (world s1)) as [w1 r1],
           (call op args kw (world s2)) as [w2 r2]. simpl in *.
  split; [|done]. repeat split; simpl; try done. by rewrite Hi, app_assoc.
Qed.

Lemma world_blind_for_each {A} (l : list A) (body : A → SE ExecState unit) :
  (∀ x, world_blind (body x)) → world_blind (for_each l body).
Proof.
  intros Hbody. induction l as [|x l IH]; simpl.
  - apply world_blind_ret.
  - apply world_blind_bind; [apply Hbody | by intros _].
Qed.

Lemma world_blind_collect {A B} (l : list A) (f : A → SE ExecState B) :
  (∀ x, world_blind (f x)) → world_blind (collect l f).
Proof.
  intros Hf. induction l as [|x l IH]; simpl.
  - apply world_blind_ret.
  - apply world_blind_bind; [apply Hf|]. intros y.
    apply world_blind_bind; [apply IH|]. intros ys. apply world_blind_ret.
Qed.

Lemma world_blind_one_row g op kw line :
  deterministic_operations → world_blind (one_row g op kw line).
Proof.
  intros Hdet. unfold one_row, read_fields.
  apply world_blind_bind.
  - apply world_blind_collect. intros f. unfold read_one.
    destruct (isinstance f ReadField); [|apply world_blind_raise].
    apply world_blind_bind; [apply world_blind_logging_info|].
    intros _. by apply world_blind_invoke.
  - intros fields. apply world_blind_bind; [apply world_blind_logging_info|].
    intros _. apply world_blind_bind; [by apply world_blind_invoke|].
    intros record. apply world_blind_yield.
Qed.

Lemma world_blind_step g rs op :
  deterministic_operations → world_blind (step g rs op).
Proof.
  intros Hdet. unfold step.
  apply world_blind_bind; [apply world_blind_logging_info|]. intros _.
  apply world_blind_bind.
  { unfold node_kwargs. destruct (node_attrs (g_nodes g) op);
      [apply world_blind_ret | apply world_blind_raise]. }
  intros kw.
  apply world_blind_bind; [apply world_blind_gets_results|]. intros res.
  destruct (isinstance op GroupRecordSet).
  - destruct (negb _); [apply world_blind_ret|].
    destruct (previous_results g res op) as [|tbl [|]];
      try apply world_blind_raise.
    apply world_blind_bind; [apply world_blind_lift|]. intros rows.
    unfold group_rows. apply world_blind_for_each. intros line.
    by apply world_blind_one_row.
  - destruct (_ && _); [apply world_blind_ret|].
    apply world_blind_bind; [by apply world_blind_invoke|]. intros v.
    apply world_blind_set_results.
Qed.

End EngineFacts.

(** ** Whole iterations *)

Section IterationFacts.
Context {RT : Runtime} {FE : Frontend}.

Implicit Types (self : Records.t) (w : World) (s : ExecState).

Lemma for_each_app {S A} (l1 l2 : list A) (body : A → SE S unit) (s : S) :
  for_each (l1 ++ l2) body s =
    match for_each l1 body s with
    | (s', inl e) => (s', inl e)
    | (s', inr _) => for_each l2 body s'
    end.
Proof.
  revert s. induction l1 as [|x l1 IH]; intros s; [done|].
  simpl. unfold bind. destruct (body x s) as [s1 [e|[]]]; [done|]. apply IH.
Qed.

(** What [__iter__] does once it has the graph. *)
Lemma iterate_compiled self w cg :
  Dataset.operations (Records.dataset self) = Some cg →
  Records.iterate self w =
    match for_each (topological_sort (graph cg)).1
            (step (graph cg) (Records.record_set self)) (Records.fresh w) with
    | (s', inl e) => (s', inl e)
    | (s', inr _) =>
        match (topological_sort (graph cg)).2 with
        | Some e => (s', inl e)
        | None => (s', inr tt)
        end
    end.
Proof.
  intros Hops. unfold Records.iterate, Records.iter, Records.run_graph, bind, modify.
  simpl. rewrite Hops. unfold bind.
  change (set_results (λ _, ∅) (Records.fresh w)) with (Records.fresh w).
  destruct (for_each _ _ _) as [s' [e|[]]]; [done|].
  by destruct ((topological_sort (graph cg)).2).
Qed.

(** C1: iterating [records(dataset, X)] yields exactly one record per row
    of the table gathered from the single predecessor of X's
    [GroupRecordSet], in row order, each record being what the
    [GroupRecordSet] returns on the values its successor [ReadField]
    operations return on that row; an empty table gives no record.  Here
    the walk reaches the record set's operation in the state [s1], one
    table [tbl] with the rows [rows] is gathered there, no other record set
    bears the name, the successors are [ReadField] operations, and the
    calls made from there on return. *)
Theorem records_one_per_row self w cg before op after a s1 tbl rows :
  Dataset.operations (Records.dataset self) = Some cg →
  topological_sort (graph cg) = (before ++ op :: after, None) →
  isinstance op GroupRecordSet = true →
  name (node op) = Records.record_set self →
  (∀ o, o ∈ before ++ after →
        isinstance o GroupRecordSet = true → name (node o) ≠ Records.record_set self) →
  node_attrs (g_nodes (graph cg)) op = Some a →
  for_each before (step (graph cg) (Records.record_set self)) (Records.fresh w)
    = (s1, inr tt) →
  previous_results (graph cg) (results s1) op = [tbl] →
  iterrows tbl = inr rows →
  (∀ f, f ∈ successors (graph cg) op → isinstance f ReadField = true ∧ returns f) →
  returns op →
  (∀ o, o ∈ after → is_Some (node_attrs (g_nodes (graph cg)) o) ∧ returns o) →
  ∃ s' w',
    Records.iterate self w = (s', inr tt)
    ∧ length (yielded s') = length rows
    ∧ RowsAssembled (successors (graph cg) op) op (default ∅ a) rows
                    (world s1) (yielded s') w'
    ∧ (rows = [] → yielded s' = []).
Proof.
  intros Hops Hsort Hg Hname Hothers Hn Hbefore Hprev Hrows Hfs Hret Hafter.
  set (g := graph cg) in *. set (rs := Records.record_set self) in *.
  assert (Hy1 : yielded s1 = []).
  { pose proof (walk_yields_nothing g rs before (Records.fresh w)) as H.
    rewrite Hbefore in H. apply H.
    intros o Ho. apply Hothers. apply elem_of_app. by left. }
  destruct (step_target_assembled g rs op s1 a tbl rows)
    as (s2 & recs & Hstep & Hy2 & Hlen & HR); try done.
  rewrite Hy1 in Hy2. simpl in Hy2.
  destruct (walk_others_returns g rs after s2) as [s3 Hwalk].
  { done. }
  { intros o Ho. apply Hothers. apply elem_of_app. by right. }
  assert (Hy3 : yielded s3 = recs).
  { pose proof (walk_yields_nothing g rs after s2) as H.
    rewrite Hwalk in H. simpl in H. rewrite H; [done|].
    intros o Ho. apply Hothers. apply elem_of_app. by right. }
  exists s3, (world s2).
  split; [|split; [|split]].
  - rewrite (iterate_compiled self w cg Hops). fold g rs. rewrite Hsort. simpl.
    by rewrite for_each_app, Hbefore, for_each_cons, Hstep, Hwalk.
  - by rewrite Hy3.
  - by rewrite Hy3.
  - intros ->. rewrite Hy3. by destruct recs.
Qed.

(** C5: when no [GroupRecordSet] node of the computation graph bears the
    target name, the iteration yields no record, and the absent name is no
    error: when the operations met are nodes of the graph whose calls
    return and the order ends without a cycle error, the iteration ends
    normally. *)
Theorem absent_record_set_yields_nothing self w cg :
  Dataset.operations (Records.dataset self) = Some cg →
  (∀ o, is_Some (node_attrs (g_nodes (graph cg)) o) →
        isinstance o GroupRecordSet = true →
        name (node o) ≠ Records.record_set self) →
  (∀ o, o ∈ (topological_sort (graph cg)).1 →
        is_Some (node_attrs (g_nodes (graph cg)) o)) →
  yielded (Records.iterate self w).1 = []
  ∧ ((∀ o, o ∈ (topological_sort (graph cg)).1 → returns o) →
     (topological_sort (graph cg)).2 = None →
     (Records.iterate self w).2 = inr tt).
Proof.
  intros Hops Habsent Hnodes.
  rewrite (iterate_compiled self w cg Hops).
  set (g := graph cg) in *. set (rs := Records.record_set self) in *.
  assert (Hother : ∀ o, o ∈ (topological_sort g).1 →
            isinstance o GroupRecordSet = true → name (node o) ≠ rs)
    by (intros o Ho; apply Habsent, Hnodes, Ho).
  split.
  - pose proof (walk_yields_nothing g rs _ (Records.fresh w) Hother) as H.
    destruct (for_each _ _ _) as [s' [e|[]]]; simpl in *; [done|].
    by destruct ((topological_sort g).2).
  - intros Hret Hacyclic.
    destruct (walk_others_returns g rs (topological_sort g).1 (Records.fresh w))
      as [s' ->]; [|done|].
    + intros o Ho. split; [by apply Hnodes | by apply Hret].
    + by rewrite Hacyclic.
Qed.

Lemma world_blind_run_graph self :
  deterministic_operations → world_blind (Records.run_graph self).
Proof.
  intros Hdet. unfold Records.run_graph.
  destruct (Dataset.operations (Records.dataset self)) as [cg|];
    [|apply world_blind_raise].
  apply world_blind_bind.
  - apply world_blind_for_each. intros op. by apply world_blind_step.
  - intros _. destruct ((topological_sort (graph cg)).2);
      [apply world_blind_raise | apply world_blind_ret].
Qed.

(** An iteration does not read the state it starts in: whatever the
    results cache, the traces and the world there, it adds the traces of
    an iteration started afresh and ends as that one does. *)
Lemma iter_forgets self s w :
  deterministic_operations →
  same_run_after (yielded s) (invoked s) (logged s)
    (Records.iterate self w).1 (Records.iter self s).1
  ∧ (Records.iter self s).2 = (Records.iterate self w).2.
Proof.
  intros Hdet. unfold Records.iterate, Records.iter, bind, modify. simpl.
  apply (world_blind_run_graph self Hdet).
  repeat split; simpl; by rewrite app_nil_r.
Qed.

(** C4: two successive iterations of the same [records(dataset, X)]
    produce the identical sequence of records, end the same way and make
    the same calls.  The second iteration is a new generator in the world
    the first one left; and even run on the very state the first one left,
    stale results cache included, [__iter__] starts from an empty cache
    and adds the same records again.  The dataset and its graph are read,
    never written.  The operations are taken to be deterministic: what a
    call returns does not depend on the world. *)
Theorem reiteration_yields_same_records self w :
  deterministic_operations →
  let first := Records.iterate self w in
  let second := Records.iterate self (world first.1) in
  let resumed := Records.iter self first.1 in
  (yielded second.1 = yielded first.1
   ∧ second.2 = first.2
   ∧ invoked second.1 = invoked first.1)
  ∧ (yielded resumed.1 = yielded first.1 ++ yielded first.1
     ∧ resumed.2 = first.2
     ∧ invoked resumed.1 = invoked first.1 ++ invoked first.1).
Proof.
  intros Hdet first second resumed. split.
  - destruct (iter_forgets self (Records.fresh (world first.1)) w Hdet)
      as [(Hr & Hy & Hi & Hl) Hout].
    by repeat split.
  - destruct (iter_forgets self first.1 w Hdet) as [(Hr & Hy & Hi & Hl) Hout].
    by repeat split.
Qed.

(** C10: a dataset whose validator left [operations] as [None], as the
    legacy early return does, has [operations] [None]; [records(name)]
    builds its view all the same, and iterating the view raises on reading
    the graph of [None], where an empty sequence might be expected: no
    record is yielded, no operation is called. *)
Theorem iterating_without_operations_raises path r ds :
  Dataset.post_init path = (r, inr ds) →
  (Validator.analysis (Validator.start (Validator.new path))).2 = inr Validator.Returned
  ∨ Validator.operations (Validator.self r) = None →
  Dataset.operations ds = None
  ∧ ∀ name w,
      Records.dataset (records ds name) = ds
      ∧ Records.record_set (records ds name) = name
      ∧ Records.iterate (records ds name) w
        = (Records.fresh w,
           inl (AttributeError "'NoneType' object has no attribute 'graph'")).
Proof.
  intros Hpost Hnone.
  assert (Hops : Dataset.operations ds = None).
  { unfold Dataset.post_init, Validator.run_static_analysis in Hpost.
    destruct Hnone as [Hret|Hnone].
    - destruct (Validator.analysis _) as [r' [e|[]]] eqn:Han; simpl in Hret;
        try discriminate.
      assert (Validator.operations (Validator.self r') = None) as Hr'.
      { revert Han. unfold Validator.analysis, bind, gets, lift, modify,
          Validator.stage, Validator.stage_on_issues. simpl.
        destruct (_load_file path) as [e|loaded]; simpl; [discriminate|].
        destruct (load_rdf_graph loaded.2) as [e|rdf]; simpl; [discriminate|].
        destruct (check_rdf_graph [] rdf.2) as [iss1 [e|nodes]]; simpl;
          [discriminate|].
        destruct (build_structure_graph iss1 nodes) as [iss2 [e|built]]; simpl;
          [discriminate|].
        destruct (String.eqb (uid built.1) "Movielens-25M").
        - intros [= <-]. reflexivity.
        - destruct (from_nodes _ _ _ _ _) as [iss3 [e|ops]]; simpl;
            [discriminate|].
          destruct (check_graph ops iss3) as [iss4 [e|[]]]; simpl; discriminate. }
      destruct (Validator.file (Validator.self r')); [|discriminate].
      injection Hpost as <- <-. exact Hr'.
    - destruct (Validator.analysis _) as [r' [e|[]]] eqn:Han.
      + destruct (negb _); discriminate.
      + destruct (Validator.file (Validator.self r')); [|discriminate].
        by injection Hpost as <- <-.
      + destruct (negb _); [discriminate|].
        destruct (negb _).
        * unfold Validator.logging_warning, modify in Hpost. simpl in Hpost.
          destruct (Validator.file (Validator.self r')); [|discriminate].
          by injection Hpost as <- <-.
        * destruct (Validator.file (Validator.self r')); [|discriminate].
          by injection Hpost as <- <-. }
  split; [done|].
  intros name w. repeat split.
  unfold Records.iterate, Records.iter, Records.run_graph, bind, modify, raise.
  simpl. by rewrite Hops.
Qed.

End IterationFacts.

(** ** Static analysis *)

Section AnalysisFacts.
Context {RT : Runtime} {FE : Frontend}.

Implicit Types (v : Validator.t) (r : Validator.Run).

Lemma analysis_missing_file v :
  path_exists (path_resolve (Validator.file_or_file_path v)) = false →
  Validator.analysis (Validator.start v)
  = (Validator.start v, inl (missing_file (Validator.file_or_file_path v))).
Proof.
  intros Hno. unfold Validator.analysis, bind, gets, lift. simpl.
  unfold _load_file. by rewrite Hno.
Qed.

(** C8: for a path that resolves to no existing file, loading raises the
    precondition error, a [ValueError] naming the resolved file; building
    the dataset raises that same error with no front-end call made and the
    ledger still empty; and whatever the validator's ledger held, the run
    adds no issue and reaches no graph work. *)
Theorem missing_file_is_a_precondition_error path :
  path_exists (path_resolve path) = false →
  _load_file path = inl (ValueError ("File " +:+ path_resolve path +:+ " does not exist."))
  ∧ Dataset.post_init path
    = (Validator.start (Validator.new path),
       inl (ValueError ("File " +:+ path_resolve path +:+ " does not exist.")))
  ∧ ∀ v, Validator.file_or_file_path v = path →
         (Validator.run_static_analysis (Validator.start v)).1 = Validator.start v.
Proof.
  intros Hno. split; [|split].
  - unfold _load_file. by rewrite Hno.
  - unfold Dataset.post_init, Validator.run_static_analysis.
    by rewrite analysis_missing_file.
  - intros v <-. unfold Validator.run_static_analysis.
    rewrite analysis_missing_file by done.
    by destruct (negb _).
Qed.

(** C9: when the entry node of the structure graph has the uid
    ["Movielens-25M"], static analysis returns right after the structure
    graph is built: the front-end calls made are the three up to
    [build_structure_graph], so the computation graph is not compiled and
    [check_graph] is not run; [operations] is left as it was; nothing is
    raised, whatever the ledger holds, and nothing is logged. *)
Theorem legacy_dataset_returns_early v file_path content rdf iss1 nodes iss2 entry sg :
  _load_file (Validator.file_or_file_path v) = inr (file_path, content) →
  load_rdf_graph content = inr rdf →
  check_rdf_graph (Validator.issues v) rdf.2 = (iss1, inr nodes) →
  build_structure_graph iss1 nodes = (iss2, inr (entry, sg)) →
  uid entry = "Movielens-25M" →
  Validator.run_static_analysis (Validator.start v)
  = ({| Validator.self :=
          {| Validator.file_or_file_path := Validator.file_or_file_path v;
             Validator.issues := iss2;
             Validator.file := Some content;
             Validator.operations := Validator.operations v |};
        Validator.stages :=
          [Validator.LoadRdfGraph; Validator.CheckRdfGraph;
           Validator.BuildStructureGraph];
        Validator.warned := [] |}, inr tt).
Proof.
  intros Hload Hrdf Hcheck Hbuild Huid.
  unfold Validator.run_static_analysis, Validator.analysis, bind, gets, lift,
    modify, Validator.stage, Validator.stage_on_issues. simpl.
  rewrite Hload. simpl. rewrite Hrdf. simpl. rewrite Hcheck. simpl.
  rewrite Hbuild. simpl. rewrite Huid. reflexivity.
Qed.

(** C2, as the code has it: the legacy early return ends the analysis
    normally and logs nothing, whatever the ledger holds.  Otherwise, a
    [ValidationError] whose message is the ledger's report is raised when
    at least one error was recorded; and when none was, an exception of
    the analysis propagates unchanged, and without one the analysis
    returns, logging the report exactly when a warning was recorded. *)
Theorem static_analysis_outcome v r res :
  Validator.run_static_analysis (Validator.start v) = (r, res) →
  let ledger := Validator.issues (Validator.self r) in
  let exit := (Validator.analysis (Validator.start v)).2 in
  (exit = inr Validator.Returned → res = inr tt ∧ Validator.warned r = [])
  ∧ (exit ≠ inr Validator.Returned →
     (errors ledger ≠ [] →
      ∃ cause, res = inl (ValidationError (report issue_str ledger) cause))
     ∧ (errors ledger = [] →
        match exit with
        | inl e => res = inl e ∧ Validator.warned r = []
        | inr _ =>
            res = inr tt
            ∧ (warnings ledger ≠ [] → Validator.warned r = [report issue_str ledger])
            ∧ (warnings ledger = [] → Validator.warned r = [])
        end)).
Proof.
  intros Hrun ledger exit. subst ledger exit.
  assert (Hw : Validator.warned (Validator.analysis (Validator.start v)).1 = []).
  { unfold Validator.analysis, bind, gets, lift, modify,
      Validator.stage, Validator.stage_on_issues. simpl.
    destruct (_load_file _) as [e|loaded]; simpl; [done|].
    destruct (load_rdf_graph loaded.2) as [e|rdf]; simpl; [done|].
    destruct (check_rdf_graph _ rdf.2) as [iss1 [e|nodes]]; simpl; [done|].
    destruct (build_structure_graph iss1 nodes) as [iss2 [e|built]]; simpl; [done|].
    destruct (String.eqb (uid built.1) "Movielens-25M"); [done|].
    destruct (from_nodes _ _ _ _ _) as [iss3 [e|ops]]; simpl; [done|].
    by destruct (check_graph ops iss3) as [iss4 [e|[]]]. }
  unfold Validator.run_static_analysis in Hrun.
  destruct (Validator.analysis (Validator.start v)) as [r' [e|[]]]; simpl in *.
  - split; [discriminate|]. intros _.
    destruct (errors (Validator.issues (Validator.self r'))) as [|i l] eqn:He;
      simpl in Hrun; injection Hrun as <- <-; rewrite He.
    + split; [done|]. by intros _.
    + split; [by eexists | done].
  - injection Hrun as <- <-. split; [done|]. by intros [].
  - split; [discriminate|]. intros _.
    destruct (errors (Validator.issues (Validator.self r'))) as [|i l] eqn:He;
      simpl in Hrun.
    + destruct (warnings (Validator.issues (Validator.self r'))) as [|i l] eqn:Hwarn;
        simpl in Hrun.
      * injection Hrun as <- <-. rewrite He, Hwarn. split; [done|]. by intros _.
      * unfold Validator.logging_warning, modify in Hrun.
        injection Hrun as <- <-. simpl. rewrite He, Hwarn, Hw.
        split; [done|]. intros _. by repeat split.
    + injection Hrun as <- <-. rewrite He. split; [by eexists | done].
Qed.

End AnalysisFacts.

(** ** The step theorems at work on the demo graph *)

Section OnTheDemo.
#[local] Existing Instance Demo.runtime.
#[local] Existing Instance Demo.frontend.

Lemma step_skips_other_record_set_demo :
  step Demo.demo_graph "ratings" Demo.movies (Records.fresh Demo.offline)
  = (announced Demo.movies (Records.fresh Demo.offline), inr tt).
Proof.
  apply (step_skips_other_record_set (RT := Demo.runtime)
           Demo.demo_graph "ratings" Demo.movies (Records.fresh Demo.offline) None).
  - reflexivity.
  - reflexivity.
  - discriminate.
Defined.

Lemma step_skips_read_field_without_input_demo :
  step Demo.demo_graph "ratings" Demo.user (Records.fresh Demo.offline)
  = (announced Demo.user (Records.fresh Demo.offline), inr tt).
Proof.
  apply (step_skips_read_field_without_input (RT := Demo.runtime)
           Demo.demo_graph "ratings" Demo.user (Records.fresh Demo.offline) None).
  - reflexivity.
  - reflexivity.
  - reflexivity.
Defined.

Lemma demo_operations_return op : returns (RT := Demo.runtime) op.
Proof.
  intros args kw w. unfold call. simpl. unfold Demo.demo_call.
  destruct (op_class op); try by eexists _, _.
  destruct args as [|[[| | |]|] [|]]; by eexists _, _.
Qed.

Lemma demo_operations_deterministic : deterministic_operations (RT := Demo.runtime).
Proof.
  intros op args kw w1 w2. unfold call. simpl. unfold Demo.demo_call.
  destruct (op_class op); try reflexivity.
  destruct args as [|[[| | |]|] [|]]; reflexivity.
Qed.

Lemma join_gathers_the_cached_table :
  previous_results Demo.join_graph (results Demo.before_join) Demo.joined
  = [Demo.Table [[7]]%Z].
Proof.
  unfold previous_results.
  change (predecessors Demo.join_graph Demo.joined)
    with [Demo.left_source; Demo.right_source; Demo.late_source].
  unfold Demo.before_join. cbn [results omap list_omap].
  rewrite lookup_insert_eq.
  rewrite (lookup_insert_ne _ Demo.left_source Demo.right_source) by done.
  rewrite lookup_insert_eq.
  rewrite !lookup_insert_ne by done.
  by rewrite lookup_empty.
Qed.

Lemma executed_on_gathered_results_demo :
  let s := Demo.before_join in
  let gathered := previous_results Demo.join_graph (results s) Demo.joined in
  (∀ vs, Gathered (results s) (predecessors Demo.join_graph Demo.joined) vs
         ↔ vs = gathered)
  ∧ (∀ v, v ∈ gathered ↔
          ∃ p, p ∈ predecessors Demo.join_graph Demo.joined
               ∧ results s !! p = Some (Some v))
  ∧ (isinstance Demo.joined GroupRecordSet = false →
     isinstance Demo.joined ReadField && is_nil gathered = false →
     invoked (step Demo.join_graph "ratings" Demo.joined s).1 =
       invoked s ++ [{| callee := Demo.joined; call_args := Some <$> gathered;
                        call_kwargs := default ∅ None |}]).
Proof.
  apply (executed_on_gathered_results (RT := Demo.runtime)
           Demo.join_graph "ratings" Demo.joined Demo.before_join None).
  reflexivity.
Defined.

Lemma records_one_per_row_demo :
  ∃ s' w',
    Records.iterate (records Demo.demo_dataset "ratings") Demo.offline = (s', inr tt)
    ∧ length (yielded s') = length [Demo.Row [1; 5]%Z; Demo.Row [2; 3]%Z]
    ∧ RowsAssembled (successors Demo.demo_graph Demo.ratings) Demo.ratings
                    (default ∅ None) [Demo.Row [1; 5]%Z; Demo.Row [2; 3]%Z]
                    (world Demo.downloaded) (yielded s') w'
    ∧ ([Demo.Row [1; 5]%Z; Demo.Row [2; 3]%Z] = [] → yielded s' = []).
Proof.
  apply (records_one_per_row (RT := Demo.runtime) (FE := Demo.frontend)
           (records Demo.demo_dataset "ratings") Demo.offline Demo.demo_operations
           [Demo.dl] Demo.ratings [Demo.movies; Demo.user; Demo.score; Demo.title]
           None Demo.downloaded (Demo.Table [[1; 5]; [2; 3]]%Z)
           [Demo.Row [1; 5]%Z; Demo.Row [2; 3]%Z]).
  - reflexivity.
  - reflexivity.
  - reflexivity.
  - reflexivity.
  - intros o Ho. simpl in Ho.
    repeat (apply elem_of_cons in Ho as [->|Ho]); try discriminate.
    by apply elem_of_nil in Ho.
  - reflexivity.
  - reflexivity.
  - unfold previous_results.
    change (predecessors (graph Demo.demo_operations) Demo.ratings) with [Demo.dl].
    unfold Demo.downloaded. cbn [results omap list_omap].
    by rewrite lookup_singleton_eq.
  - reflexivity.
  - intros f Hf. split; [|apply demo_operations_return].
    change (successors (graph Demo.demo_operations) Demo.ratings)
      with [Demo.user; Demo.score] in Hf.
    repeat (apply elem_of_cons in Hf as [->|Hf]); try reflexivity.
    by apply elem_of_nil in Hf.
  - apply demo_operations_return.
  - intros o Ho. split; [|apply demo_operations_return].
    repeat (apply elem_of_cons in Ho as [->|Ho]); try by eexists.
    by apply elem_of_nil in Ho.
Defined.

Lemma absent_record_set_yields_nothing_demo :
  yielded (Records.iterate (records Demo.demo_dataset "absent") Demo.offline).1 = []
  ∧ ((∀ o, o ∈ (topological_sort (graph Demo.demo_operations)).1 → returns o) →
     (topological_sort (graph Demo.demo_operations)).2 = None →
     (Records.iterate (records Demo.demo_dataset "absent") Demo.offline).2 = inr tt).
Proof.
  apply (absent_record_set_yields_nothing (RT := Demo.runtime) (FE := Demo.frontend)
           (records Demo.demo_dataset "absent") Demo.offline Demo.demo_operations).
  - reflexivity.
  - intros o [a Ho]. simpl in Ho.
    repeat (case_decide; [subst o; try discriminate|]); try discriminate.
    all: intros _; discriminate.
  - intros o Ho.
    change ((topological_sort (graph Demo.demo_operations)).1)
      with [Demo.dl; Demo.ratings; Demo.movies; Demo.user; Demo.score; Demo.title] in Ho.
    repeat (apply elem_of_cons in Ho as [->|Ho]); try by eexists.
    by apply elem_of_nil in Ho.
Defined.

Lemma reiteration_yields_same_records_demo :
  let first := Records.iterate (records Demo.demo_dataset "ratings") Demo.offline in
  let second := Records.iterate (records Demo.demo_dataset "ratings") (world first.1) in
  let resumed := Records.iter (records Demo.demo_dataset "ratings") first.1 in
  (yielded second.1 = yielded first.1
   ∧ second.2 = first.2
   ∧ invoked second.1 = invoked first.1)
  ∧ (yielded resumed.1 = yielded first.1 ++ yielded first.1
     ∧ resumed.2 = first.2
     ∧ invoked resumed.1 = invoked first.1 ++ invoked first.1).
Proof.
  apply (reiteration_yields_same_records (RT := Demo.runtime) (FE := Demo.frontend)
           (records Demo.demo_dataset "ratings") Demo.offline).
  apply demo_operations_deterministic.
Defined.

Lemma iterating_without_operations_raises_demo :
  Dataset.operations Demo.movielens_dataset = None
  ∧ ∀ name w,
      Records.dataset (records Demo.movielens_dataset name) = Demo.movielens_dataset
      ∧ Records.record_set (records Demo.movielens_dataset name) = name
      ∧ Records.iterate (records Demo.movielens_dataset name) w
        = (Records.fresh w,
           inl (AttributeError "'NoneType' object has no attribute 'graph'")).
Proof.
  apply (iterating_without_operations_raises (RT := Demo.runtime) (FE := Demo.frontend)
           "movielens.json" Demo.movielens_run Demo.movielens_dataset).
  - reflexivity.
  - left. reflexivity.
Defined.

Lemma missing_file_is_a_precondition_error_demo :
  _load_file "nope.json" = inl (ValueError "File nope.json does not exist.")
  ∧ Dataset.post_init "nope.json"
    = (Validator.start (Validator.new "nope.json"),
       inl (ValueError "File nope.json does not exist."))
  ∧ ∀ v, Validator.file_or_file_path v = "nope.json" →
         (Validator.run_static_analysis (Validator.start v)).1 = Validator.start v.
Proof.
  apply (missing_file_is_a_precondition_error (RT := Demo.runtime) (FE := Demo.frontend)
           "nope.json").
  reflexivity.
Defined.

Lemma legacy_dataset_returns_early_demo :
  Validator.run_static_analysis (Validator.start (Validator.new "movielens.json"))
  = (Demo.movielens_run, inr tt).
Proof.
  apply (legacy_dataset_returns_early (RT := Demo.runtime) (FE := Demo.frontend)
           (Validator.new "movielens.json") "movielens.json" "movielens.json"
           ("movielens.json", "movielens.json") [Demo.missing_name] "movielens.json"
           [Demo.missing_name]
           {| uid := "Movielens-25M"; name := "movielens.json" |} "movielens.json").
  - reflexivity.
  - reflexivity.
  - reflexivity.
  - reflexivity.
  - reflexivity.
Defined.

(** C2 as stated fails on the code.  For [movielens.json] an error is
    recorded, yet the legacy early return ends the analysis normally, so
    no [ValidationError] is raised.  For [noisy.json] only a warning is
    recorded, yet the exception of the failing compilation propagates, so
    the analysis does not return and nothing is logged. *)
Lemma report_does_not_follow_ledger :
  ¬ report_follows_ledger (FE := Demo.frontend) "movielens.json"
  ∧ ¬ report_follows_ledger (FE := Demo.frontend) "noisy.json".
Proof.
  split.
  - intros [[_ Hraise] _].
    destruct Hraise as [cause Hraise]; [by vm_compute|].
    vm_compute in Hraise. discriminate.
  - intros [_ Hwarn].
    destruct Hwarn as [Hret _]; [by vm_compute | by vm_compute |].
    vm_compute in Hret. discriminate.
Qed.

Lemma static_analysis_outcome_demo :
  let v := Validator.new "noisy.json" in
  let out := Validator.run_static_analysis (Validator.start v) in
  let ledger := Validator.issues (Validator.self out.1) in
  let exit := (Validator.analysis (Validator.start v)).2 in
  (exit = inr Validator.Returned → out.2 = inr tt ∧ Validator.warned out.1 = [])
  ∧ (exit ≠ inr Validator.Returned →
     (errors ledger ≠ [] →
      ∃ cause, out.2 = inl (ValidationError (report issue_str ledger) cause))
     ∧ (errors ledger = [] →
        match exit with
        | inl e => out.2 = inl e ∧ Validator.warned out.1 = []
        | inr _ =>
            out.2 = inr tt
            ∧ (warnings ledger ≠ [] → Validator.warned out.1 = [report issue_str ledger])
            ∧ (warnings ledger = [] → Validator.warned out.1 = [])
        end)).
Proof.
  intros v out.
  apply (static_analysis_outcome (RT := Demo.runtime) (FE := Demo.frontend)
           v out.1 out.2).
  reflexivity.
Defined.

End OnTheDemo.

(** * Further properties of the engine *)

Section RowLoopFacts.
Context {RT : Runtime}.

Implicit Types (g : DiGraph (gmap string (option Value))).
Implicit Types (s : ExecState) (op : Operation) (rs : string).

Lemma collect_cons {S A B} (x : A) (l : list A) (f : A → SE S B) (s : S) :
  collect (x :: l) f s =
    match f x s with
    | (s1, inl e) => (s1, inl e)
    | (s1, inr y) =>
        match collect l f s1 with
        | (s2, inl e) => (s2, inl e)
        | (s2, inr ys) => (s2, inr (y :: ys))
        end
    end.
Proof.
  simpl. unfold bind. destruct (f x s) as [s1 [e|y]]; [done|].
  by destruct (collect l f s1) as [s2 [e|ys]].
Qed.

(** What one successor does on one row, however it ends. *)
Lemma read_one_cases kw line f s :
  (isinstance f ReadField = false
   ∧ read_one kw line f s = (s, inl (AssertionError EmptyString)))
  ∨ (isinstance f ReadField = true
     ∧ ∃ w r, call f [Some line] kw (world s) = (w, r)
        ∧ read_one kw line f s =
            ({| results := results s; yielded := yielded s;
                invoked := invoked s ++ [row_call kw line f];
                logged := logged s ++ [f]; world := w |}, r)).
Proof.
  unfold read_one. destruct (isinstance f ReadField); [right|left]; [|done].
  split; [done|].
  unfold bind, logging_info, modify, invoke. simpl.
  destruct (call f [Some line] kw (world s)) as [w r]. by exists w, r.
Qed.

(** The successors read on one row, however the reading ends: the cache
    and the records are untouched, and the calls made are those to the
    successors attempted, in order, each a [ReadField] called on the row. *)
Lemma read_fields_sound kw line fs s s' res :
  collect fs (read_one kw line) s = (s', res) →
  results s' = results s ∧ yielded s' = yielded s
  ∧ ∃ tried, tried `prefix_of` fs
      ∧ Forall (λ f, isinstance f ReadField = true) tried
      ∧ invoked s' = invoked s ++ (row_call kw line <$> tried)
      ∧ match res with
        | inr vs => tried = fs ∧ FieldsRead kw line fs (world s) vs (world s')
        | inl _ => True
        end.
Proof.
  revert s s' res. induction fs as [|f fs IH]; intros s s' res Hrun.
  - injection Hrun as <- <-. split; [done|]. split; [done|].
    exists []. split; [done|]. split; [done|]. split; [by rewrite app_nil_r|].
    split; [done|constructor].
  - rewrite collect_cons in Hrun.
    destruct (read_one_cases kw line f s) as [[Hf Hone]|[Hf (w & r & Hcall & Hone)]];
      rewrite Hone in Hrun.
    + injection Hrun as <- <-. split; [done|]. split; [done|].
      exists []. split; [apply prefix_nil|]. split; [done|].
      split; [by rewrite app_nil_r|done].
    + destruct r as [e|v].
      * injection Hrun as <- <-. split; [done|]. split; [done|].
        exists [f]. split; [by apply prefix_cons, prefix_nil|].
        split; [by constructor|]. done.
      * destruct (collect fs _ _) as [s2 r2] eqn:Hrest.
        destruct (IH _ _ _ Hrest) as (Hres & Hy & tried & Hpre & Hall & Hinv & Hout).
        simpl in *.
        assert (s' = s2 ∧ res = match r2 with inl e => inl e | inr ys => inr (v :: ys) end)
          as [-> ->] by (destruct r2; by injection Hrun as <- <-).
        split; [done|]. split; [done|].
        exists (f :: tried). split; [by apply prefix_cons|].
        split; [by constructor|].
        split; [rewrite Hinv; simpl; by rewrite <- app_assoc|].
        destruct r2 as [e|ys]; [done|]. destruct Hout as [-> HF].
        split; [done|]. econstructor; eauto.
Qed.

(** One row, however it ends. *)
Lemma one_row_sound g op kw line s s' res :
  one_row g op kw line s = (s', res) →
  results s' = results s
  ∧ ∃ new, invoked s' = invoked s ++ new
      ∧ Forall (row_loop_call op kw line) new
      ∧ match res with
        | inr _ =>
            ∃ values w1 record,
              FieldsRead kw line (successors g op) (world s) values w1
              ∧ call op values kw w1 = (world s', inr record)
              ∧ yielded s' = yielded s ++ [record]
              ∧ length new = S (length (successors g op))
        | inl _ => yielded s' = yielded s
        end.
Proof.
  unfold one_row, read_fields. unfold bind at 1.
  destruct (collect _ _ s) as [s1 r1] eqn:Hread.
  destruct (read_fields_sound _ _ _ _ _ _ Hread)
    as (Hres1 & Hy1 & tried & Hpre & Hall & Hinv & Hout).
  assert (Htried : Forall (row_loop_call op kw line) (row_call kw line <$> tried)).
  { apply Forall_fmap. eapply Forall_impl; [exact Hall|]. intros f Hf.
    split; [done|]. by left. }
  destruct r1 as [e|values].
  - intros [= <- <-]. split; [done|]. by exists (row_call kw line <$> tried).
  - destruct Hout as [-> HF].
    unfold bind at 1, logging_info, modify. simpl.
    unfold bind at 1, invoke. simpl.
    destruct (call op values kw (world s1)) as [w2 [e|record]] eqn:Hcall;
      unfold yield, modify; simpl; intros [= <- <-]; simpl.
    + split; [done|].
      exists ((row_call kw line <$> successors g op)
              ++ [{| callee := op; call_args := values; call_kwargs := kw |}]).
      split; [by rewrite Hinv, <- app_assoc|].
      split; [|done].
      apply Forall_app. split; [done|].
      constructor; [split; [done|by right]|constructor].
    + split; [done|].
      exists ((row_call kw line <$> successors g op)
              ++ [{| callee := op; call_args := values; call_kwargs := kw |}]).
      split; [by rewrite Hinv, <- app_assoc|].
      split.
      { apply Forall_app. split; [done|].
        constructor; [split; [done|by right]|constructor]. }
      exists values, (world s1), record.
      split; [done|]. split; [done|]. split; [by rewrite Hy1|].
      rewrite length_app, length_fmap. simpl. lia.
Qed.

Lemma RowsAssembled_length fs op kw rows w recs w' :
  RowsAssembled fs op kw rows w recs w' → length recs = length rows.
Proof. induction 1; simpl; congruence. Qed.

(** The row loop, however it ends: the records yielded are those of the
    rows finished, a prefix of the table's rows. *)
Lemma group_rows_sound g op kw rows s s' res :
  group_rows g op kw rows s = (s', res) →
  results s' = results s
  ∧ ∃ recs new finished w',
      yielded s' = yielded s ++ recs
      ∧ invoked s' = invoked s ++ new
      ∧ Forall (λ c, ∃ line, line ∈ rows ∧ row_loop_call op kw line c) new
      ∧ finished `prefix_of` rows
      ∧ RowsAssembled (successors g op) op kw finished (world s) recs w'
      ∧ match res with
        | inr _ => finished = rows ∧ w' = world s'
                   ∧ length new = length rows * S (length (successors g op))
        | inl _ => length finished < length rows
        end.
Proof.
  unfold group_rows. revert s s' res.
  induction rows as [|line rows IH]; intros s s' res Hrun.
  - injection Hrun as <- <-. split; [done|].
    exists [], [], [], (world s).
    split; [by rewrite app_nil_r|]. split; [by rewrite app_nil_r|].
    split; [constructor|]. split; [done|]. split; [constructor|]. done.
  - rewrite for_each_cons in Hrun.
    destruct (one_row g op kw line s) as [s1 r1] eqn:Hrow.
    destruct (one_row_sound _ _ _ _ _ _ _ Hrow) as (Hres1 & new1 & Hinv1 & Hall1 & Hout1).
    assert (Hnew1 : Forall (λ c, ∃ l, l ∈ line :: rows ∧ row_loop_call op kw l c) new1).
    { eapply Forall_impl; [exact Hall1|]. intros c Hc. exists line.
      split; [left|done]. }
    destruct r1 as [e|[]].
    + injection Hrun as <- <-. split; [done|].
      exists [], new1, [], (world s).
      split; [by rewrite Hout1, app_nil_r|]. split; [done|].
      split; [done|]. split; [apply prefix_nil|]. split; [constructor|].
      simpl. lia.
    + destruct Hout1 as (values & w1 & record & HF & Hcall & Hy1 & Hlen1).
      destruct (IH _ _ _ Hrun)
        as (Hres & recs & new & finished & w' & Hy & Hinv & Hall & Hpre & HR & Hout).
      split; [by rewrite Hres|].
      exists (record :: recs), (new1 ++ new), (line :: finished), w'.
      split; [by rewrite Hy, Hy1, <- app_assoc|].
      split; [by rewrite Hinv, Hinv1, <- app_assoc|].
      split.
      { apply Forall_app. split; [done|].
        eapply Forall_impl; [exact Hall|]. intros c (l & Hl & Hc).
        exists l. split; [by right|done]. }
      split; [by apply prefix_cons|].
      split; [econstructor; eauto|].
      destruct res as [e|[]].
      * simpl. lia.
      * destruct Hout as (-> & -> & Hlen). split; [done|]. split; [done|].
        rewrite length_app, Hlen, Hlen1. simpl. lia.
Qed.

(** X1: the step on the target's record set, however it ends, yields the
    records of the rows it finished, a prefix of the table's rows, each
    assembled as [RowsAssembled] says, and leaves the cache alone.  It
    finishes all rows exactly when it returns, and then it has made one
    call per successor and one to the record set for every row; when it
    raises, at least one row is left without a record. *)
Theorem target_step_yields_finished_rows g rs op s a tbl rows s' res :
  node_attrs (g_nodes g) op = Some a →
  isinstance op GroupRecordSet = true →
  name (node op) = rs →
  previous_results g (results s) op = [tbl] →
  iterrows tbl = inr rows →
  step g rs op s = (s', res) →
  results s' = results s
  ∧ ∃ recs finished w',
      yielded s' = yielded s ++ recs
      ∧ length recs = length finished
      ∧ finished `prefix_of` rows
      ∧ RowsAssembled (successors g op) op (default ∅ a) finished (world s) recs w'
      ∧ match res with
        | inr _ =>
            finished = rows
            ∧ length (invoked s') =
                length (invoked s) + length rows * S (length (successors g op))
        | inl _ => length finished < length rows
        end.
Proof.
  intros Hn Hg Hname Hp Hrows.
  unfold step, bind, logging_info, modify, node_kwargs, gets. simpl.
  rewrite Hn. simpl. rewrite Hg, Hp.
  apply String.eqb_eq in Hname. rewrite Hname. simpl.
  unfold lift. rewrite Hrows.
  intros Hrun.
  destruct (group_rows_sound _ _ _ _ _ _ _ Hrun)
    as (Hres & recs & new & finished & w' & Hy & Hinv & Hall & Hpre & HR & Hout).
  split; [done|].
  exists recs, finished, w'.
  split; [done|]. split; [by eapply RowsAssembled_length|].
  split; [done|]. split; [done|].
  destruct res as [e|[]]; [done|].
  destruct Hout as (-> & _ & Hlen). split; [done|].
  rewrite Hinv, length_app, Hlen. done.
Qed.

(** X2: in the row loop the fields are called with the record set's
    keyword arguments, not their own: however the step on the target's
    record set ends, every call it made is to a [ReadField] on one row of
    the table alone, or to the record set itself, and carries the keyword
    arguments of the record set's node. *)
Theorem target_step_passes_its_own_kwargs g rs op s a tbl rows :
  node_attrs (g_nodes g) op = Some a →
  isinstance op GroupRecordSet = true →
  name (node op) = rs →
  previous_results g (results s) op = [tbl] →
  iterrows tbl = inr rows →
  ∃ new, invoked (step g rs op s).1 = invoked s ++ new
    ∧ Forall (λ c, ∃ line, line ∈ rows ∧ row_loop_call op (default ∅ a) line c) new.
Proof.
  intros Hn Hg Hname Hp Hrows.
  unfold step, bind, logging_info, modify, node_kwargs, gets. simpl.
  rewrite Hn. simpl. rewrite Hg, Hp.
  apply String.eqb_eq in Hname. rewrite Hname. simpl.
  unfold lift. rewrite Hrows.
  destruct (group_rows g op (default ∅ a) rows _) as [s' res] eqn:Hrun.
  destruct (group_rows_sound _ _ _ _ _ _ _ Hrun)
    as (_ & recs & new & finished & w' & _ & Hinv & Hall & _).
  by exists new.
Qed.

(** X3: the step on the target's record set raises before calling anything
    unless exactly one table was gathered: with no gathered result (the
    predecessor has not run, or returned [None]) or with several, the
    assertion of line 138 fails, its message giving the number gathered;
    with one result that has no rows to iterate, the exception of
    [iterrows] escapes.  Nothing is yielded and the cache is untouched. *)
Theorem target_step_needs_one_table g rs op s a :
  node_attrs (g_nodes g) op = Some a →
  isinstance op GroupRecordSet = true →
  name (node op) = rs →
  (length (previous_results g (results s) op) ≠ 1 →
   step g rs op s =
     (announced op s,
      inl (AssertionError
             (dquote +:+ op_str op +:+ dquote
              +:+ " should have one and only one predecessor. Got: "
              +:+ pretty (length (previous_results g (results s) op)) +:+ "."))))
  ∧ (∀ tbl e, previous_results g (results s) op = [tbl] →
              iterrows tbl = inl e →
              step g rs op s = (announced op s, inl e)).
Proof.
  intros Hn Hg Hname.
  apply String.eqb_eq in Hname.
  split.
  - intros Hlen.
    unfold step, bind, logging_info, modify, node_kwargs, gets. simpl.
    rewrite Hn. simpl. rewrite Hg, Hname. simpl.
    destruct (previous_results g (results s) op) as [|tbl [|tbl' rest]]; try done.
  - intros tbl e Hp Hrows.
    unfold step, bind, logging_info, modify, node_kwargs, gets. simpl.
    rewrite Hn. simpl. rewrite Hg, Hname, Hp. simpl.
    unfold lift. by rewrite Hrows.
Qed.

Lemma read_fields_stop kw line before f after s :
  (∀ f', f' ∈ before → isinstance f' ReadField = true ∧ returns f') →
  isinstance f ReadField = false →
  ∃ s', collect (before ++ f :: after) (read_one kw line) s
        = (s', inl (AssertionError EmptyString))
    ∧ results s' = results s
    ∧ yielded s' = yielded s
    ∧ invoked s' = invoked s ++ (row_call kw line <$> before).
Proof.
  intros Hbefore Hf. revert s.
  induction before as [|f' before IH]; intros s.
  - simpl. unfold bind, read_one. rewrite Hf. simpl.
    exists s. by rewrite app_nil_r.
  - destruct (Hbefore f') as [Hrf Hret]; [left|].
    destruct (Hret [Some line] kw (world s)) as (w1 & v & Hcall).
    destruct (read_one_cases kw line f' s) as [[Hno _]|[_ (w & r & Hcall' & Hone)]];
      [congruence|].
    rewrite Hcall in Hcall'. injection Hcall' as <- <-.
    simpl app. rewrite collect_cons, Hone.
    match goal with
    | |- context [collect _ _ ?s1] =>
        destruct (IH ltac:(intros; apply Hbefore; by right) s1)
          as (s' & Hrun & Hres & Hy & Hinv)
    end.
    rewrite Hrun.
    exists s'. split; [done|]. split; [done|]. split; [done|].
    rewrite Hinv. simpl. by rewrite <- app_assoc.
Qed.

(** X4: a successor of the record set that is no [ReadField] stops the row
    at the assertion of line 146: the successors before it have been
    called on the row, but neither that successor nor the record set is
    called, and no record is yielded for the row. *)
Theorem row_stops_at_a_successor_that_is_no_field g op kw line s before f after :
  successors g op = before ++ f :: after →
  (∀ f', f' ∈ before → isinstance f' ReadField = true ∧ returns f') →
  isinstance f ReadField = false →
  ∃ s', one_row g op kw line s = (s', inl (AssertionError EmptyString))
    ∧ results s' = results s
    ∧ yielded s' = yielded s
    ∧ invoked s' = invoked s ++ (row_call kw line <$> before).
Proof.
  intros Hsucc Hbefore Hf.
  destruct (read_fields_stop kw line before f after s Hbefore Hf)
    as (s' & Hrun & Hrest).
  exists s'. split; [|done].
  unfold one_row, read_fields. rewrite Hsucc. unfold bind at 1. by rewrite Hrun.
Qed.

End RowLoopFacts.

(** * Further properties of the walk *)

Section WalkFacts.
Context {RT : Runtime}.

Implicit Types (g : DiGraph (gmap string (option Value))).
Implicit Types (s : ExecState) (op : Operation) (rs : string).

Lemma read_field_is_no_record_set op :
  isinstance op ReadField = true → isinstance op GroupRecordSet = false.
Proof. destruct op as [[] nd]; simpl; done. Qed.

(** What a step does to the cache and to the record of calls, however it
    ends: the cache is untouched, or the step was that of a plain operation
    whose call returned and whose result is now cached; and every call
    added to a [GroupRecordSet] is to one named as the target. *)
Lemma step_effects g rs op s :
  (results (step g rs op s).1 = results s
   ∨ (isinstance op GroupRecordSet = false
      ∧ ∃ v, results (step g rs op s).1 = <[op := v]> (results s)))
  ∧ ∃ new, invoked (step g rs op s).1 = invoked s ++ new
      ∧ Forall (λ c, isinstance (callee c) GroupRecordSet = true →
                     name (node (callee c)) = rs) new.
Proof.
  destruct (node_attrs (g_nodes g) op) as [a|] eqn:Hn.
  2:{ rewrite step_node_missing by done. simpl. split; [by left|].
      exists []. by rewrite app_nil_r. }
  unfold step, bind, logging_info, modify, node_kwargs, gets. simpl.
  rewrite Hn. simpl.
  destruct (isinstance op GroupRecordSet) eqn:Hg.
  - destruct (String.eqb (name (node op)) rs) eqn:Hname; simpl.
    2:{ split; [by left|]. exists []. by rewrite app_nil_r. }
    apply String.eqb_eq in Hname.
    destruct (previous_results g (results s) op) as [|tbl [|tbl' rest]]; simpl;
      try (split; [by left|]; exists []; by rewrite app_nil_r).
    unfold lift. destruct (iterrows tbl) as [e|rows]; simpl.
    { split; [by left|]. exists []. by rewrite app_nil_r. }
    destruct (group_rows g op (default ∅ a) rows _) as [s' res] eqn:Hrun.
    destruct (group_rows_sound _ _ _ _ _ _ _ Hrun)
      as (Hres & recs & new & finished & w' & Hy & Hinv & Hall & _).
    simpl in *. split; [by left|].
    exists new. split; [done|].
    eapply Forall_impl; [exact Hall|].
    intros c (line & _ & _ & [[Hrf _]|Hop]) Hc.
    + apply read_field_is_no_record_set in Hrf. congruence.
    + by rewrite Hop.
  - destruct (isinstance op ReadField && _); simpl.
    { split; [by left|]. exists []. by rewrite app_nil_r. }
    unfold invoke. simpl.
    destruct (call op _ _ _) as [w [e|v]]; simpl.
    + split; [by left|]. eexists. split; [done|].
      constructor; [|constructor]. simpl. congruence.
    + split; [right; split; [done|by exists v]|]. eexists. split; [done|].
      constructor; [|constructor]. simpl. congruence.
Qed.

Lemma walk_effects g rs ops s :
  (∀ k, is_Some (results (for_each ops (step g rs) s).1 !! k) →
        is_Some (results s !! k)
        ∨ (k ∈ ops ∧ isinstance k GroupRecordSet = false))
  ∧ ∃ new, invoked (for_each ops (step g rs) s).1 = invoked s ++ new
      ∧ Forall (λ c, isinstance (callee c) GroupRecordSet = true →
                     name (node (callee c)) = rs) new.
Proof.
  revert s. induction ops as [|op ops IH]; intros s.
  - simpl. split; [by left|]. exists []. by rewrite app_nil_r.
  - rewrite for_each_cons.
    destruct (step_effects g rs op s) as [Hres (new1 & Hinv1 & Hall1)].
    destruct (step g rs op s) as [s1 [e|[]]] eqn:Hstep; simpl in *.
    + split; [|by exists new1].
      intros k Hk. destruct Hres as [Hsame|(Hg & v & Hins)].
      { left. by rewrite <- Hsame. }
      rewrite Hins in Hk.
      destruct (decide (op = k)) as [->|Hne].
      * right. split; [left|done].
      * left. by rewrite lookup_insert_ne in Hk.
    + destruct (IH s1) as [Hkeys (new & Hinv & Hall)].
      split.
      * intros k Hk. destruct (Hkeys k Hk) as [Hold|[Hin Hg]].
        -- destruct Hres as [Hsame|(Hg & v & Hins)].
           { left. by rewrite <- Hsame. }
           rewrite Hins in Hold.
           destruct (decide (op = k)) as [->|Hne].
           ++ right. split; [left|done].
           ++ left. by rewrite lookup_insert_ne in Hold.
        -- right. split; [by right|done].
      * exists (new1 ++ new). split; [by rewrite Hinv, Hinv1, <- app_assoc|].
        by apply Forall_app.
Qed.

(** X5: a plain operation whose call returns is cached under itself, and
    its result reaches its consumers: for an operation [q] that has [op]
    as a predecessor, the results gathered for [q] afterwards are the
    result of [op], unless it is [None], and what the other predecessors
    had cached. *)
Theorem result_reaches_the_consumers g rs op s a w' r :
  node_attrs (g_nodes g) op = Some a →
  isinstance op GroupRecordSet = false →
  isinstance op ReadField && is_nil (previous_results g (results s) op) = false →
  call op (Some <$> previous_results g (results s) op) (default ∅ a) (world s)
    = (w', inr r) →
  ∃ s', step g rs op s = (s', inr tt)
    ∧ results s' = <[op := r]> (results s)
    ∧ yielded s' = yielded s
    ∧ world s' = w'
    ∧ ∀ q v, op ∈ predecessors g q →
        (v ∈ previous_results g (results s') q
         ↔ r = Some v
           ∨ ∃ p, p ≠ op ∧ p ∈ predecessors g q ∧ results s !! p = Some (Some v)).
Proof.
  intros Hn Hg Hskip Hcall.
  eexists. split.
  { unfold step, bind, logging_info, modify, node_kwargs, gets. simpl.
    rewrite Hn. simpl. rewrite Hg, Hskip. unfold invoke. simpl.
    rewrite Hcall. reflexivity. }
  simpl. split; [done|]. split; [done|]. split; [done|].
  intros q v Hq.
  rewrite (Gathered_elem _ _ _ v (previous_results_gathered g _ q)).
  split.
  - intros (p & Hp & Hlook).
    destruct (decide (op = p)) as [<-|Hne].
    + rewrite lookup_insert_eq in Hlook. left. congruence.
    + rewrite lookup_insert_ne in Hlook by done. right. by exists p.
  - intros [->|(p & Hne & Hp & Hlook)].
    + exists op. split; [done|]. by rewrite lookup_insert_eq.
    + exists p. split; [done|]. by rewrite lookup_insert_ne.
Qed.

(** X6: the top-level walk never executes a field that hangs under record
    sets only.  From a cache that holds no [GroupRecordSet], the cache
    reached by walking any operations holds none either, so a [ReadField]
    all of whose predecessors are [GroupRecordSet] operations gathers
    nothing there and is skipped: it is called from the row loop of its
    record set alone. *)
Theorem field_of_a_record_set_is_left_to_the_row_loop g rs ops s0 s r f a :
  no_record_set_cached (results s0) →
  for_each ops (step g rs) s0 = (s, r) →
  node_attrs (g_nodes g) f = Some a →
  isinstance f ReadField = true →
  (∀ p, p ∈ predecessors g f → isinstance p GroupRecordSet = true) →
  no_record_set_cached (results s)
  ∧ step g rs f s = (announced f s, inr tt).
Proof.
  intros Hclean Hwalk Hn Hf Hpreds.
  assert (Hclean' : no_record_set_cached (results s)).
  { intros k Hk.
    destruct (walk_effects g rs ops s0) as [Hkeys _].
    rewrite Hwalk in Hkeys. simpl in Hkeys.
    destruct (Hkeys k Hk) as [Hold|[_ Hg]]; [by apply Hclean | done]. }
  split; [done|].
  assert (Hnone : previous_results g (results s) f = []).
  { destruct (previous_results g (results s) f) as [|v vs] eqn:Hp; [done|].
    assert (Hv : v ∈ previous_results g (results s) f) by (rewrite Hp; left).
    apply (Gathered_elem _ _ _ v (previous_results_gathered g _ f)) in Hv
      as (p & Hin & Hlook).
    specialize (Hpreds p Hin).
    rewrite (Hclean' p) in Hpreds; [discriminate | by rewrite Hlook]. }
  unfold step, bind, logging_info, modify, node_kwargs, gets. simpl.
  rewrite Hn. simpl. rewrite Hnone, Hf.
  by rewrite (read_field_is_no_record_set f Hf).
Qed.

End WalkFacts.

(** * Further properties of whole iterations *)

Section MoreIterationFacts.
Context {RT : Runtime} {FE : Frontend}.

Implicit Types (self : Records.t) (w : World) (s : ExecState).

Lemma iterate_state self w cg :
  Dataset.operations (Records.dataset self) = Some cg →
  (Records.iterate self w).1
  = (for_each (topological_sort (graph cg)).1
       (step (graph cg) (Records.record_set self)) (Records.fresh w)).1.
Proof.
  intros Hops. rewrite (iterate_compiled self w cg Hops).
  destruct (for_each _ _ _) as [s' [e|[]]]; [done|].
  by destruct ((topological_sort (graph cg)).2).
Qed.

Lemma iterate_uncompiled self w :
  Dataset.operations (Records.dataset self) = None →
  (Records.iterate self w).1 = Records.fresh w.
Proof.
  intros Hops.
  unfold Records.iterate, Records.iter, Records.run_graph, bind, modify, raise.
  simpl. by rewrite Hops.
Qed.

(** X7: however an iteration ends, its results cache holds plain
    operations of the topological order only: no [GroupRecordSet] is ever
    cached, so nothing downstream of a record set is fed by the top-level
    walk. *)
Theorem iteration_caches_plain_operations self w :
  map_Forall
    (λ k _, isinstance k GroupRecordSet = false
            ∧ ∃ cg, Dataset.operations (Records.dataset self) = Some cg
                    ∧ k ∈ (topological_sort (graph cg)).1)
    (results (Records.iterate self w).1).
Proof.
  intros k v Hk.
  destruct (Dataset.operations (Records.dataset self)) as [cg|] eqn:Hops.
  - rewrite (iterate_state self w cg Hops) in Hk.
    destruct (walk_effects (graph cg) (Records.record_set self)
                (topological_sort (graph cg)).1 (Records.fresh w)) as [Hkeys _].
    destruct (Hkeys k) as [Hold|[Hin Hg]]; [by rewrite Hk | |].
    + simpl in Hold. rewrite lookup_empty in Hold. by destruct Hold.
    + split; [done|]. by exists cg.
  - rewrite (iterate_uncompiled self w Hops) in Hk. simpl in Hk.
    by rewrite lookup_empty in Hk.
Qed.

(** X8: however an iteration ends, every call it made to a
    [GroupRecordSet] was to one whose node bears the target name: the
    record sets that were not asked for are never called. *)
Theorem iteration_calls_the_target_record_set_only self w :
  Forall (λ c, isinstance (callee c) GroupRecordSet = true →
               name (node (callee c)) = Records.record_set self)
         (invoked (Records.iterate self w).1).
Proof.
  destruct (Dataset.operations (Records.dataset self)) as [cg|] eqn:Hops.
  - rewrite (iterate_state self w cg Hops).
    destruct (walk_effects (graph cg) (Records.record_set self)
                (topological_sort (graph cg)).1 (Records.fresh w))
      as [_ (new & -> & Hall)].
    done.
  - rewrite (iterate_uncompiled self w Hops). constructor.
Qed.

(** X9: a plain operation whose call raises ends the iteration with that
    exception: the call is on record, nothing is cached for it, the
    records yielded so far stay yielded, and no operation after it in the
    order is announced or called, nor is a cycle error of the order
    reached. *)
Theorem failing_operation_ends_the_iteration self w cg before op after err s1 a w' e :
  Dataset.operations (Records.dataset self) = Some cg →
  topological_sort (graph cg) = (before ++ op :: after, err) →
  for_each before (step (graph cg) (Records.record_set self)) (Records.fresh w)
    = (s1, inr tt) →
  node_attrs (g_nodes (graph cg)) op = Some a →
  isinstance op GroupRecordSet = false →
  isinstance op ReadField
    && is_nil (previous_results (graph cg) (results s1) op) = false →
  call op (Some <$> previous_results (graph cg) (results s1) op) (default ∅ a)
       (world s1) = (w', inl e) →
  Records.iterate self w
  = ({| results := results s1;
        yielded := yielded s1;
        invoked := invoked s1
                   ++ [{| callee := op;
                          call_args := Some <$> previous_results (graph cg) (results s1) op;
                          call_kwargs := default ∅ a |}];
        logged := logged s1 ++ [op];
        world := w' |}, inl e).
Proof.
  intros Hops Hsort Hbefore Hn Hg Hskip Hcall.
  rewrite (iterate_compiled self w cg Hops), Hsort. simpl.
  rewrite for_each_app, Hbefore, for_each_cons.
  unfold step at 1, bind, logging_info, modify, node_kwargs, gets. simpl.
  rewrite Hn. simpl. rewrite Hg, Hskip. unfold invoke. simpl.
  by rewrite Hcall.
Qed.

End MoreIterationFacts.

(** * Further properties of static analysis *)

Section MoreAnalysisFacts.
Context {RT : Runtime} {FE : Frontend}.

Implicit Types (v : Validator.t) (r : Validator.Run).

(** The analysis followed through its front-end calls, one case for each
    place where it can end. *)
Ltac analysis_cases :=
  unfold Validator.analysis, bind, gets, lift, modify,
    Validator.stage, Validator.stage_on_issues; simpl;
  destruct (_load_file _) as [?e|[?fp ?content]] eqn:?Hload; simpl;
  [| destruct (load_rdf_graph _) as [?e|[?rg ?ng]] eqn:?Hrdf; simpl;
     [| destruct (check_rdf_graph _ _) as [?iss1 [?e|?nodes]] eqn:?Hcheck; simpl;
        [| destruct (build_structure_graph _ _) as [?iss2 [?e|[?entry ?sg]]]
             eqn:?Hbuild; simpl;
           [| destruct (String.eqb (uid _) _) eqn:?Huid; simpl;
              [| destruct (from_nodes _ _ _ _ _) as [?iss3 [?e|?ops]] eqn:?Hfrom; simpl;
                 [| destruct (check_graph _ _) as [?iss4 [?e|[]]] eqn:?Hcg; simpl ]]]]]].

Lemma load_file_returns filepath file_path content :
  _load_file filepath = inr (file_path, content) →
  path_exists (path_resolve filepath) = true
  ∧ file_path = path_resolve filepath
  ∧ json_load (path_resolve filepath) = inr content.
Proof.
  unfold _load_file.
  destruct (path_exists (path_resolve filepath)); simpl; [|discriminate].
  destruct (json_load (path_resolve filepath)) as [e|c]; [discriminate|].
  by intros [= <- <-].
Qed.

(** The run ends in the state the [try] block ended in, but for the
    warning it may log. *)
Lemma run_keeps_the_analysis_state v :
  Validator.self (Validator.run_static_analysis (Validator.start v)).1
    = Validator.self (Validator.analysis (Validator.start v)).1
  ∧ Validator.stages (Validator.run_static_analysis (Validator.start v)).1
    = Validator.stages (Validator.analysis (Validator.start v)).1.
Proof.
  unfold Validator.run_static_analysis.
  destruct (Validator.analysis (Validator.start v)) as [r [e|[]]]; simpl.
  - by destruct (negb _).
  - done.
  - destruct (negb _); [done|]. by destruct (negb _).
Qed.

(** X10: whatever the document and however the run ends, the front-end
    functions are called in the order of the source, each at most once and
    none skipped: the calls made are a prefix of the pipeline.  Graph work
    has begun exactly when the file was loaded, and then [file] holds its
    content; [operations] is assigned exactly when the computation graph
    was compiled, which is when [check_graph] gets called, so a failing
    [check_graph] leaves it assigned; the path is never changed. *)
Theorem stages_follow_the_pipeline v :
  let r := (Validator.run_static_analysis (Validator.start v)).1 in
  Validator.stages r `prefix_of` pipeline
  ∧ (Validator.LoadRdfGraph ∈ Validator.stages r
     ↔ ∃ file_path content,
         _load_file (Validator.file_or_file_path v) = inr (file_path, content)
         ∧ Validator.file (Validator.self r) = Some content)
  ∧ (Validator.CheckGraph ∈ Validator.stages r
     → is_Some (Validator.operations (Validator.self r)))
  ∧ (Validator.CheckGraph ∉ Validator.stages r
     → Validator.operations (Validator.self r) = Validator.operations v)
  ∧ Validator.file_or_file_path (Validator.self r) = Validator.file_or_file_path v.
Proof.
  intros r. subst r.
  destruct (run_keeps_the_analysis_state v) as [-> ->].
  unfold pipeline.
  analysis_cases.
  all: split; [by repeat first [apply prefix_nil | apply prefix_cons]|].
  all: split;
    [split;
     [intros Hin; first [by apply elem_of_nil in Hin | by eexists _, _]
     |intros (? & ? & [=] & ?); repeat first [left | right]]|].
  all: split; [intros Hin; try done;
               repeat (apply elem_of_cons in Hin as [Hin|Hin]; try discriminate);
               try by apply elem_of_nil in Hin|].
  all: split; [|done].
  all: intros Hnot; try done.
  all: exfalso; apply Hnot; repeat first [left | right].
Qed.

(** X11: a dataset that was built comes from an existing file whose JSON
    content is its [file]; it keeps its validator and the validator's
    operations.  Either the analysis left by the legacy return after three
    front-end calls and the dataset has no operations, or all five calls
    were made and returned, the dataset has a computation graph and the
    ledger holds no error. *)
Theorem built_dataset_is_analysed path r ds :
  Dataset.post_init path = (r, inr ds) →
  path_exists (path_resolve path) = true
  ∧ json_load (path_resolve path) = inr (Dataset.file ds)
  ∧ Dataset.validator ds = Validator.self r
  ∧ Dataset.operations ds = Validator.operations (Validator.self r)
  ∧ ((Validator.stages r = take 3 pipeline ∧ Dataset.operations ds = None)
     ∨ (Validator.stages r = pipeline
        ∧ is_Some (Dataset.operations ds)
        ∧ errors (Validator.issues (Validator.self r)) = [])).
Proof.
  unfold Dataset.post_init, Validator.run_static_analysis.
  destruct (Validator.analysis _) as [r' x] eqn:Han.
  revert Han. analysis_cases; intros [= <- <-]; simpl;
    try discriminate;
    try (destruct (negb (is_nil (errors _))); simpl; discriminate).
  - intros [= <- <-]. simpl.
    destruct (load_file_returns _ _ _ Hload) as (Hex & -> & Hjson).
    repeat split; try done. by left.
  - destruct (errors iss4) as [|i l] eqn:He; simpl; [|discriminate].
    destruct (load_file_returns _ _ _ Hload) as (Hex & -> & Hjson).
    destruct (negb (is_nil (warnings iss4)));
      unfold Validator.logging_warning, modify; simpl; intros [= <- <-]; simpl;
      (repeat split; try done; right; by repeat split).
Qed.

Lemma string_app_assoc (a b c : string) : (a +:+ b) +:+ c = a +:+ (b +:+ c).
Proof.
  induction a as [|x a IH]; [done|].
  change (String x ((a +:+ b) +:+ c) = String x (a +:+ (b +:+ c))).
  by rewrite IH.
Qed.

Lemma report_contains (f : Issue → string) (iss : Issues) (i : Issue) :
  i ∈ iss → occurs_in (f i) (report f iss).
Proof.
  induction iss as [|j iss IH]; [by intros ?%elem_of_nil|].
  change (report f (j :: iss)) with (f j +:+ report f iss).
  intros [->|Hin]%elem_of_cons.
  - by exists EmptyString, (report f iss).
  - destruct (IH Hin) as (before & after & ->).
    exists (f j +:+ before), after. by rewrite string_app_assoc.
Qed.

(** X12: [Dataset(path)] builds nothing for a document with a recorded
    error, unless the analysis left by the legacy return: it raises a
    [ValidationError] whose message holds the text of every recorded
    issue, and whose cause is the exception of the analysis step that
    failed, if one did.  This is what [test_check_graph] expects of each of
    its documents. *)
Theorem dataset_rejects_recorded_errors path r res :
  Dataset.post_init path = (r, res) →
  (Validator.analysis (Validator.start (Validator.new path))).2
    ≠ inr Validator.Returned →
  errors (Validator.issues (Validator.self r)) ≠ [] →
  ∃ msg,
    res = inl (ValidationError msg
                 match (Validator.analysis (Validator.start (Validator.new path))).2 with
                 | inl e => Some e
                 | inr _ => None
                 end)
    ∧ msg = report issue_str (Validator.issues (Validator.self r))
    ∧ ∀ i, i ∈ Validator.issues (Validator.self r) → occurs_in (issue_str i) msg.
Proof.
  unfold Dataset.post_init, Validator.run_static_analysis.
  destruct (Validator.analysis _) as [r' [e|[]]]; simpl.
  - destruct (errors (Validator.issues (Validator.self r'))) as [|i l] eqn:He; simpl.
    + intros [= <- <-] _ Herr. by rewrite He in Herr.
    + intros [= <- <-] _ _. eexists. split; [done|]. split; [done|].
      intros j Hj. by apply report_contains.
  - intros _ Hexit. by destruct Hexit.
  - destruct (errors (Validator.issues (Validator.self r'))) as [|i l] eqn:He; simpl.
    + destruct (negb _); unfold Validator.logging_warning, modify; simpl;
        destruct (Validator.file (Validator.self r'));
        intros [= <- <-] _ Herr; simpl in Herr; by rewrite He in Herr.
    + intros [= <- <-] _ _. eexists. split; [done|]. split; [done|].
      intros j Hj. by apply report_contains.
Qed.

(** X13: a failure before any issue can be recorded escapes [Dataset(path)]
    as it is, never wrapped in a [ValidationError]: the exception of
    [json.load] on a file that exists, with no front-end call made, and the
    exception of [load_rdf_graph], the first and only front-end call made.
    The ledger is still empty. *)
Theorem early_failures_escape_unwrapped path e :
  (path_exists (path_resolve path) = true →
   json_load (path_resolve path) = inl e →
   Dataset.post_init path = (Validator.start (Validator.new path), inl e))
  ∧ (∀ content,
       path_exists (path_resolve path) = true →
       json_load (path_resolve path) = inr content →
       load_rdf_graph content = inl e →
       ∃ r, Dataset.post_init path = (r, inl e)
            ∧ Validator.stages r = [Validator.LoadRdfGraph]
            ∧ Validator.issues (Validator.self r) = []
            ∧ Validator.file (Validator.self r) = Some content).
Proof.
  split.
  - intros Hex Hjson.
    unfold Dataset.post_init, Validator.run_static_analysis,
      Validator.analysis, bind, gets, lift. simpl.
    unfold _load_file. by rewrite Hex, Hjson.
  - intros content Hex Hjson Hrdf.
    unfold Dataset.post_init, Validator.run_static_analysis,
      Validator.analysis, bind, gets, lift, modify, Validator.stage. simpl.
    unfold _load_file. rewrite Hex, Hjson. simpl. rewrite Hrdf. simpl.
    by eexists.
Qed.

End MoreAnalysisFacts.

(** * The further properties at work *)

Section MoreOnTheDemo.
#[local] Existing Instance Demo.runtime.
#[local] Existing Instance Demo.frontend.

Lemma target_step_yields_finished_rows_demo :
  let rows := [Demo.Row [1; 5]%Z; Demo.Row [2; 3]%Z] in
  let s := Demo.downloaded in
  let out := step Demo.demo_graph "ratings" Demo.ratings s in
  results out.1 = results s
  ∧ ∃ recs finished w',
      yielded out.1 = yielded s ++ recs
      ∧ length recs = length finished
      ∧ finished `prefix_of` rows
      ∧ RowsAssembled (successors Demo.demo_graph Demo.ratings) Demo.ratings
                      (default ∅ None) finished (world s) recs w'
      ∧ match out.2 with
        | inr _ =>
            finished = rows
            ∧ length (invoked out.1) =
                length (invoked s)
                + length rows * S (length (successors Demo.demo_graph Demo.ratings))
        | inl _ => length finished < length rows
        end.
Proof.
  intros rows s out.
  apply (target_step_yields_finished_rows (RT := Demo.runtime)
           Demo.demo_graph "ratings" Demo.ratings s None
           (Demo.Table [[1; 5]; [2; 3]]%Z) rows out.1 out.2).
  - reflexivity.
  - reflexivity.
  - reflexivity.
  - unfold previous_results.
    change (predecessors Demo.demo_graph Demo.ratings) with [Demo.dl].
    unfold s, Demo.downloaded. cbn [results omap list_omap].
    by rewrite lookup_singleton_eq.
  - reflexivity.
  - exact (surjective_pairing out).
Defined.

Lemma target_step_needs_one_table_demo :
  let s := Records.fresh Demo.offline in
  (length (previous_results Demo.demo_graph (results s) Demo.ratings) ≠ 1 →
   step Demo.demo_graph "ratings" Demo.ratings s =
     (announced Demo.ratings s,
      inl (AssertionError
             (dquote +:+ op_str Demo.ratings +:+ dquote
              +:+ " should have one and only one predecessor. Got: "
              +:+ pretty (length (previous_results Demo.demo_graph (results s)
                                    Demo.ratings)) +:+ "."))))
  ∧ (∀ tbl e, previous_results Demo.demo_graph (results s) Demo.ratings = [tbl] →
              iterrows tbl = inl e →
              step Demo.demo_graph "ratings" Demo.ratings s
              = (announced Demo.ratings s, inl e)).
Proof.
  intros s.
  apply (target_step_needs_one_table (RT := Demo.runtime)
           Demo.demo_graph "ratings" Demo.ratings s None).
  - reflexivity.
  - reflexivity.
  - reflexivity.
Defined.

Lemma row_stops_at_a_successor_that_is_no_field_demo :
  ∃ s', one_row Faulty.odd_graph Demo.ratings ∅ (Demo.Row [1; 5]%Z)
          (Records.fresh Demo.offline)
        = (s', inl (AssertionError EmptyString))
    ∧ results s' = results (Records.fresh Demo.offline)
    ∧ yielded s' = yielded (Records.fresh Demo.offline)
    ∧ invoked s' = invoked (Records.fresh Demo.offline)
                   ++ (row_call ∅ (Demo.Row [1; 5]%Z) <$> [Demo.user]).
Proof.
  apply (row_stops_at_a_successor_that_is_no_field (RT := Demo.runtime)
           Faulty.odd_graph Demo.ratings ∅ (Demo.Row [1; 5]%Z)
           (Records.fresh Demo.offline) [Demo.user] Demo.dl [Demo.score]).
  - reflexivity.
  - intros f Hf. apply elem_of_cons in Hf as [->|Hf].
    + split; [reflexivity | apply demo_operations_return].
    + by apply elem_of_nil in Hf.
  - reflexivity.
Defined.

Lemma result_reaches_the_consumers_demo :
  ∃ s', step Demo.demo_graph "ratings" Demo.dl (Records.fresh Demo.offline)
        = (s', inr tt)
    ∧ results s' = <[Demo.dl := Some (Demo.Table [[1; 5]; [2; 3]]%Z)]>
                     (results (Records.fresh Demo.offline))
    ∧ yielded s' = yielded (Records.fresh Demo.offline)
    ∧ world s' = 1
    ∧ ∀ q v, Demo.dl ∈ predecessors Demo.demo_graph q →
        (v ∈ previous_results Demo.demo_graph (results s') q
         ↔ Some (Demo.Table [[1; 5]; [2; 3]]%Z) = Some v
           ∨ ∃ p, p ≠ Demo.dl ∧ p ∈ predecessors Demo.demo_graph q
                  ∧ results (Records.fresh Demo.offline) !! p = Some (Some v)).
Proof.
  apply (result_reaches_the_consumers (RT := Demo.runtime)
           Demo.demo_graph "ratings" Demo.dl (Records.fresh Demo.offline) None
           1 (Some (Demo.Table [[1; 5]; [2; 3]]%Z))).
  - reflexivity.
  - reflexivity.
  - reflexivity.
  - reflexivity.
Defined.

Lemma field_of_a_record_set_is_left_to_the_row_loop_demo :
  no_record_set_cached (results Demo.downloaded)
  ∧ step Demo.demo_graph "ratings" Demo.user Demo.downloaded
    = (announced Demo.user Demo.downloaded, inr tt).
Proof.
  apply (field_of_a_record_set_is_left_to_the_row_loop (RT := Demo.runtime)
           Demo.demo_graph "ratings" [Demo.dl] (Records.fresh Demo.offline)
           Demo.downloaded (inr tt) Demo.user None).
  - intros k [v Hk]. simpl in Hk. by rewrite lookup_empty in Hk.
  - reflexivity.
  - reflexivity.
  - reflexivity.
  - intros p Hp.
    change (predecessors Demo.demo_graph Demo.user) with [Demo.ratings] in Hp.
    apply elem_of_cons in Hp as [->|Hp]; [reflexivity|].
    by apply elem_of_nil in Hp.
Defined.

End MoreOnTheDemo.

Section OnTheFaultyDataset.
#[local] Existing Instance Faulty.runtime.
#[local] Existing Instance Faulty.frontend.

Lemma failing_operation_ends_the_iteration_demo :
  Records.iterate (records Faulty.archive_dataset "ratings") Faulty.offline
  = ({| results := results Faulty.downloaded;
        yielded := yielded Faulty.downloaded;
        invoked := invoked Faulty.downloaded
                   ++ [{| callee := Faulty.unzip;
                          call_args :=
                            Some <$> previous_results (graph Faulty.archive_operations)
                                       (results Faulty.downloaded) Faulty.unzip;
                          call_kwargs := default ∅ None |}];
        logged := logged Faulty.downloaded ++ [Faulty.unzip];
        world := 1 |}, inl Faulty.bad_zip).
Proof.
  apply (failing_operation_ends_the_iteration (RT := Faulty.runtime)
           (FE := Faulty.frontend)
           (records Faulty.archive_dataset "ratings") Faulty.offline
           Faulty.archive_operations [Demo.dl] Faulty.unzip
           [Demo.ratings; Demo.user] None Faulty.downloaded None 1 Faulty.bad_zip).
  - reflexivity.
  - reflexivity.
  - reflexivity.
  - reflexivity.
  - reflexivity.
  - reflexivity.
  - reflexivity.
Defined.

Lemma built_dataset_is_analysed_demo :
  path_exists (path_resolve "archive.json") = true
  ∧ json_load (path_resolve "archive.json") = inr (Dataset.file Faulty.archive_dataset)
  ∧ Dataset.validator Faulty.archive_dataset = Validator.self Faulty.archive_run
  ∧ Dataset.operations Faulty.archive_dataset
    = Validator.operations (Validator.self Faulty.archive_run)
  ∧ ((Validator.stages Faulty.archive_run = take 3 pipeline
      ∧ Dataset.operations Faulty.archive_dataset = None)
     ∨ (Validator.stages Faulty.archive_run = pipeline
        ∧ is_Some (Dataset.operations Faulty.archive_dataset)
        ∧ errors (Validator.issues (Validator.self Faulty.archive_run)) = [])).
Proof.
  apply (built_dataset_is_analysed (RT := Faulty.runtime) (FE := Faulty.frontend)
           "archive.json" Faulty.archive_run Faulty.archive_dataset).
  reflexivity.
Defined.

Lemma dataset_rejects_recorded_errors_demo :
  let path := "distribution_missing_property_content_url.json" in
  let out := Dataset.post_init path in
  ∃ msg,
    out.2 = inl (ValidationError msg
                   match (Validator.analysis (Validator.start (Validator.new path))).2 with
                   | inl e => Some e
                   | inr _ => None
                   end)
    ∧ msg = report issue_str (Validator.issues (Validator.self out.1))
    ∧ ∀ i, i ∈ Validator.issues (Validator.self out.1) → occurs_in (issue_str i) msg.
Proof.
  intros path out.
  apply (dataset_rejects_recorded_errors (RT := Faulty.runtime) (FE := Faulty.frontend)
           path out.1 out.2).
  - exact (surjective_pairing out).
  - vm_compute. discriminate.
  - vm_compute. discriminate.
Defined.

Lemma early_failures_escape_unwrapped_demo :
  Dataset.post_init "truncated.json"
  = (Validator.start (Validator.new "truncated.json"), inl Faulty.truncated_json)
  ∧ ∃ r, Dataset.post_init "plain.json" = (r, inl Faulty.not_rdf)
         ∧ Validator.stages r = [Validator.LoadRdfGraph]
         ∧ Validator.issues (Validator.self r) = []
         ∧ Validator.file (Validator.self r) = Some "plain.json".
Proof.
  split.
  - apply (proj1 (early_failures_escape_unwrapped (RT := Faulty.runtime)
                    (FE := Faulty.frontend) "truncated.json" Faulty.truncated_json)).
    + reflexivity.
    + reflexivity.
  - apply (proj2 (early_failures_escape_unwrapped (RT := Faulty.runtime)
                    (FE := Faulty.frontend) "plain.json" Faulty.not_rdf) "plain.json").
    + reflexivity.
    + reflexivity.
    + reflexivity.
Defined.

Lemma target_step_passes_its_own_kwargs_demo :
  ∃ new,
    invoked (step Faulty.tuned_graph "ratings" Demo.ratings Faulty.downloaded).1
    = invoked Faulty.downloaded ++ new
    ∧ Forall (λ c, ∃ line, line ∈ [Demo.Row [1; 5]%Z; Demo.Row [2; 3]%Z]
                   ∧ row_loop_call Demo.ratings
                       (default ∅ (Some {[ "sep" := Some (Demo.Num 59) ]})) line c)
             new.
Proof.
  apply (target_step_passes_its_own_kwargs (RT := Faulty.runtime)
           Faulty.tuned_graph "ratings" Demo.ratings Faulty.downloaded
           (Some {[ "sep" := Some (Demo.Num 59) ]})
           (Demo.Table [[1; 5]; [2; 3]]%Z)
           [Demo.Row [1; 5]%Z; Demo.Row [2; 3]%Z]).
  - reflexivity.
  - reflexivity.
  - reflexivity.
  - unfold previous_results.
    change (predecessors Faulty.tuned_graph Demo.ratings) with [Demo.dl].
    unfold Faulty.downloaded. cbn [results omap list_omap].
    by rewrite lookup_singleton_eq.
  - reflexivity.
Defined.

End OnTheFaultyDataset.
